(** * dead-link-checker: a shallow embedding of [src/index.js]

    The crawler is a single JavaScript module: module-level mutable state
    (two sets, two result lists, two counters and a task queue), one
    asynchronous page checker [checkLinks], a pool of asynchronous workers
    [processQueue] and the command-line entry point [main].

    - JavaScript strings are [string], the bytes of their UTF-8 encoding;
      HTTP status codes are [Z].
    - [Set] objects are [gset string]; arrays keep their order as [list].
    - The module-level variables form the record [Globals].
    - An [async] function is cut at its [await]s: a suspended worker is a
      value of [Worker] saying which [await] it sits on, and resuming it runs
      the code up to its next [await].  A run is the list of worker indices
      in the order in which their awaited promises settle.
    - What Node provides and the repository does not define ([URL], [fetch],
      the HTML parser) is the class [Platform]. *)

From Stdlib Require Import ZArith Ascii String.
From stdpp Require Import base decidable option list gmap sets strings pretty.

Local Open Scope Z_scope.

(** ** JavaScript string methods used by the source *)

Module JS.

(** [s.startsWith(p)] *)
Definition startsWith (p s : string) : bool := String.prefix p s.

(** [s.endsWith(suf)]: some suffix of [s] is [suf]. *)
Fixpoint endsWith (suf s : string) : bool :=
  String.eqb s suf ||
  match s with
  | EmptyString => false
  | String _ s' => endsWith suf s'
  end.

(** [s.includes(sub)] *)
Fixpoint includes (sub s : string) : bool :=
  String.prefix sub s ||
  match s with
  | EmptyString => false
  | String _ s' => includes sub s'
  end.

(** [s.slice(0, -1)]: all but the last code unit, which is one byte in the
    only use the source makes of it, on a string ending in [/]. *)
Fixpoint slice_0_m1 (s : string) : string :=
  match s with
  | EmptyString => EmptyString
  | String c EmptyString => EmptyString
  | String c s' => String c (slice_0_m1 s')
  end.

(** [s.split(sep)[0]] for a one-character separator: what precedes the first
    occurrence of [sep], the whole string when there is none. *)
Fixpoint split_0 (sep : ascii) (s : string) : string :=
  match s with
  | EmptyString => EmptyString
  | String c s' => if Ascii.eqb c sep then EmptyString else String c (split_0 sep s')
  end.

(** What follows the first occurrence of [sep], if any. *)
Fixpoint after_sep (sep : ascii) (s : string) : option string :=
  match s with
  | EmptyString => None
  | String c s' => if Ascii.eqb c sep then Some s' else after_sep sep s'
  end.

(** [s.split(sep)[1]]: [undefined] when [sep] does not occur. *)
Definition split_1 (sep : ascii) (s : string) : option string :=
  split_0 sep <$> after_sep sep s.

(** The code points [trim] and [Number.parseInt] skip are the [WhiteSpace] and
    [LineTerminator] of ECMAScript: TAB, LF, VT, FF, CR and the space, which
    are one byte each; U+00A0, two bytes; and U+1680, U+2000 to U+200A,
    U+2028, U+2029, U+202F, U+205F, U+3000 and U+FEFF, three bytes each. *)
Definition isWhiteSpace (c : ascii) : bool :=
  let n := nat_of_ascii c in
  (Nat.leb 9 n && Nat.leb n 13) || Nat.eqb n 32.

(** C2 A0 is U+00A0. *)
Definition isWhiteSpace2 (a b : ascii) : bool :=
  Nat.eqb (nat_of_ascii a) 194 && Nat.eqb (nat_of_ascii b) 160.

(** E1 9A 80 is U+1680; E2 80 80 to E2 80 8A are U+2000 to U+200A; E2 80 A8,
    E2 80 A9 and E2 80 AF are U+2028, U+2029 and U+202F; E2 81 9F is U+205F;
    E3 80 80 is U+3000; EF BB BF is U+FEFF. *)
Definition isWhiteSpace3 (a b c : ascii) : bool :=
  let x := nat_of_ascii a in
  let y := nat_of_ascii b in
  let z := nat_of_ascii c in
  (Nat.eqb x 225 && Nat.eqb y 154 && Nat.eqb z 128) ||
  (Nat.eqb x 226 && Nat.eqb y 128 &&
     ((Nat.leb 128 z && Nat.leb z 138) || Nat.eqb z 168 || Nat.eqb z 169 || Nat.eqb z 175)) ||
  (Nat.eqb x 226 && Nat.eqb y 129 && Nat.eqb z 159) ||
  (Nat.eqb x 227 && Nat.eqb y 128 && Nat.eqb z 128) ||
  (Nat.eqb x 239 && Nat.eqb y 187 && Nat.eqb z 191).

(** [s.trimStart()]: the white space [s] starts with is removed, code point
    after code point. *)
Fixpoint trimStart (s : string) : string :=
  match s with
  | EmptyString => EmptyString
  | String a s1 =>
      if isWhiteSpace a then trimStart s1
      else
        match s1 with
        | EmptyString => s
        | String b s2 =>
            if isWhiteSpace2 a b then trimStart s2
            else
              match s2 with
              | EmptyString => s
              | String c s3 => if isWhiteSpace3 a b c then trimStart s3 else s
              end
        end
  end.

(** [s.trimEnd()]: [s] is cut at the first place after which it holds white
    space only.  (In UTF-8 no code point starts in the middle of another one,
    so that place is between two code points.) *)
Fixpoint trimEnd (s : string) : string :=
  match s with
  | EmptyString => EmptyString
  | String c s' =>
      if String.eqb (trimStart s) "" then EmptyString else String c (trimEnd s')
  end.

(** [s.trim()] *)
Definition trim (s : string) : string := trimEnd (trimStart s).

(** A JavaScript number as far as [Number.parseInt] produces one: [NaN], a
    double that is an integer (the two zeros are not told apart: the source
    makes no difference between them), or an infinity. *)
Inductive number := NaN | Int (z : Z) | Infinity (negative : bool).

Definition digit (c : ascii) : option Z :=
  let n := nat_of_ascii c in
  if Nat.leb 48 n && Nat.leb n 57 then Some (Z.of_nat n - 48) else None.

(** The longest prefix of decimal digits, read from the left with
    accumulator [acc]; [None] when there is no digit at all. *)
Fixpoint digits (acc : option Z) (s : string) : option Z :=
  match s with
  | EmptyString => acc
  | String c s' =>
      match digit c with
      | Some d => digits (Some (10 * default 0 acc + d)) s'
      | None => acc
      end
  end.

(** The double nearest to the integer [z], ties going to the even
    significand: [z] itself up to [2^53] in absolute value; beyond, the 53
    leading bits of [z] rounded on the bits that follow; an infinity from
    [2^1024] on. *)
Definition toDouble (z : Z) : number :=
  let m := Z.abs z in
  let e := Z.log2 m - 52 in
  if e <=? 0 then Int z
  else
    let q := Z.shiftr m e in
    let r := m - Z.shiftl q e in
    let half := Z.shiftl 1 (e - 1) in
    let q' := if (half <? r) || ((half =? r) && Z.odd q) then q + 1 else q in
    let v := Z.shiftl q' e in
    if 2 ^ 1024 <=? v then Infinity (z <? 0) else Int (Z.sgn z * v).

(** [Number.parseInt(s, 10)]: leading white space is skipped, one sign is
    read, then as many decimal digits as follow; no digit gives [NaN], and
    the integer read is rounded to a double. *)
Definition parseInt (s : string) : number :=
  match trimStart s with
  | String "-" s' => from_option (fun z => toDouble (- z)) NaN (digits None s')
  | String "+" s' => from_option toDouble NaN (digits None s')
  | s' => from_option toDouble NaN (digits None s')
  end.

(** [ToLength], which [Array.from] applies to the [length] property: [NaN]
    and negative numbers give 0, and nothing is above [2^53 - 1]. *)
Definition toLength (n : number) : Z :=
  match n with
  | NaN => 0
  | Int z => Z.max 0 (Z.min z (2 ^ 53 - 1))
  | Infinity negative => if negative then 0 else 2 ^ 53 - 1
  end.

(** [`${n}`] for an integer. *)
Definition toString (z : Z) : string := pretty z.

End JS.

(** ** Data model *)

(** What a JavaScript call gives: a value, or an exception with its
    [message]. *)
Inductive Result (A : Type) : Type :=
  | Ok (a : A)
  | Throw (message : string).
Arguments Ok {A} a.
Arguments Throw {A} message.

(** The [status] property of a recorded link: [response.status] or the
    string ["FETCH_ERROR"]. *)
Inductive Status :=
  | Code (n : Z)
  | FETCH_ERROR.

(** The objects pushed on [checkedLinks] and [deadLinks]:
    [{ url, status, error }], [error] being absent from most of them. *)
Record LinkRecord := mkLink {
  url : string;
  status : Status;
  error : option string;
}.

Global Instance Status_eq_dec : EqDecision Status.
Proof. solve_decision. Defined.
Global Instance LinkRecord_eq_dec : EqDecision LinkRecord.
Proof. solve_decision. Defined.

(** A [Response] as far as the source reads it: [status], the [location] and
    [content-type] headers ([headers.get] gives [null] for an absent one), and
    what [await response.text()] followed by the HTML parser yields: the
    [href] attribute of every [a] element in document order ([getAttribute]
    gives [null] where the attribute is absent), or the exception raised while
    the body was read. *)
Record Response := mkResponse {
  response_status : Z;
  header_location : option string;
  header_content_type : option string;
  response_anchors : Result (list (option string));
}.

(** The promise returned by [fetch(url, { redirect: "manual" })] either
    fulfils with a response or rejects with an error. *)
Inductive FetchResult :=
  | Fulfilled (response : Response)
  | Rejected (message : string).

(** What Node provides: [new URL(href, base).href], [new URL(link).origin]
    (both throw a [TypeError] on an invalid URL) and the network behind
    [fetch].  The network answers by URL: no address is fetched twice in a
    run (see the section on deduplication), so an answer that varied with time
    would add nothing. *)
Class Platform := {
  URL_href : string -> string -> Result string;
  URL_origin : string -> Result string;
  fetch : string -> FetchResult;
}.

(** The closures pushed on [queue]: [() => checkLinks(link, origin)] (lines 52,
    97 and 194) and the external-link checker of lines 101-119. *)
Inductive Task :=
  | CheckLinks (url : string)
  | CheckExternal (link : string).

Definition task_url (t : Task) : string :=
  match t with
  | CheckLinks u => u
  | CheckExternal u => u
  end.

(** The module-level variables of lines 8-17. *)
Record Globals := mkGlobals {
  deadLinks : list LinkRecord;
  visited : gset string;
  queuedLinks : gset string;
  checkedLinks : list LinkRecord;
  checked : nat;
  totalLinks : nat;
  isProcessing : bool;
  queue : list Task;
}.

Definition initial : Globals :=
  {| deadLinks := []; visited := ∅; queuedLinks := ∅; checkedLinks := [];
     checked := O; totalLinks := O; isProcessing := true; queue := [] |}.

(** The mutations the source performs, one definition per statement form. *)
Definition deadLinks_push (r : LinkRecord) (g : Globals) : Globals :=
  mkGlobals (deadLinks g ++ [r]) (visited g) (queuedLinks g) (checkedLinks g)
            (checked g) (totalLinks g) (isProcessing g) (queue g).

Definition checkedLinks_push (r : LinkRecord) (g : Globals) : Globals :=
  mkGlobals (deadLinks g) (visited g) (queuedLinks g) (checkedLinks g ++ [r])
            (checked g) (totalLinks g) (isProcessing g) (queue g).

Definition visited_add (u : string) (g : Globals) : Globals :=
  mkGlobals (deadLinks g) ({[u]} ∪ visited g) (queuedLinks g) (checkedLinks g)
            (checked g) (totalLinks g) (isProcessing g) (queue g).

Definition queuedLinks_add (u : string) (g : Globals) : Globals :=
  mkGlobals (deadLinks g) (visited g) ({[u]} ∪ queuedLinks g) (checkedLinks g)
            (checked g) (totalLinks g) (isProcessing g) (queue g).

Definition checked_incr (g : Globals) : Globals :=
  mkGlobals (deadLinks g) (visited g) (queuedLinks g) (checkedLinks g)
            (S (checked g)) (totalLinks g) (isProcessing g) (queue g).

Definition totalLinks_incr (g : Globals) : Globals :=
  mkGlobals (deadLinks g) (visited g) (queuedLinks g) (checkedLinks g)
            (checked g) (S (totalLinks g)) (isProcessing g) (queue g).

Definition queue_push (t : Task) (g : Globals) : Globals :=
  mkGlobals (deadLinks g) (visited g) (queuedLinks g) (checkedLinks g)
            (checked g) (totalLinks g) (isProcessing g) (queue g ++ [t]).

Definition queue_set (q : list Task) (g : Globals) : Globals :=
  mkGlobals (deadLinks g) (visited g) (queuedLinks g) (checkedLinks g)
            (checked g) (totalLinks g) (isProcessing g) q.

Definition isProcessing_set (b : bool) (g : Globals) : Globals :=
  mkGlobals (deadLinks g) (visited g) (queuedLinks g) (checkedLinks g)
            (checked g) (totalLinks g) b (queue g).

(** Where an [async] worker of [processQueue] is suspended. *)
Inductive Worker :=
  | AwaitFetch (url : string)
      (** in [checkLinks], line 29 *)
  | AwaitText (url : string) (response : Response)
      (** in [checkLinks], line 62 *)
  | AwaitFetchExternal (link : string)
      (** in the external-link task, line 103 *)
  | AwaitTimeout
      (** the task has settled; lines 139-140 *)
  | Returned.
      (** the [while] loop was left: the worker's promise is fulfilled *)

(** ** [checkLinks] *)

Section CheckLinks.

Context {platform : Platform}.

(** The condition of lines 69-75. *)
Definition href_accepted (href : string) : bool :=
  negb (String.eqb href "") &&
  negb (JS.startsWith "mailto:" href) &&
  negb (JS.startsWith "javascript:" href) &&
  negb (JS.startsWith "#" href) &&
  negb (String.eqb href "about:blank").

(** Lines 77-79. *)
Definition normalizedLink (resolvedLink : string) : string :=
  if JS.endsWith "/" resolvedLink then JS.slice_0_m1 resolvedLink else resolvedLink.

(** The body of the reducer, lines 67-85, for one [a] element whose
    [getAttribute("href")] is [attr] on the page [url]: the link pushed on
    [acc], or [None] when nothing is pushed (condition false, or the
    exception of [new URL] swallowed by the inner [catch]). *)
Definition normalize (attr : option string) (url : string) : option string :=
  let href := from_option JS.trim "" attr in
  if href_accepted href then
    match URL_href (JS.split_0 "#" href) url with
    | Ok resolvedLink => Some (normalizedLink resolvedLink)
    | Throw _ => None
    end
  else None.

(** Lines 65-88: [links]. *)
Definition extract_links (url : string) (anchors : list (option string)) : list string :=
  omap (fun attr => normalize attr url) anchors.

(** The outer [catch], lines 124-127. *)
Definition checkLinks_catch (url message : string) (g : Globals) : Globals :=
  deadLinks_push (mkLink url FETCH_ERROR (Some message))
    (checkedLinks_push (mkLink url FETCH_ERROR (Some message)) g).

(** [!location]: [null] and the empty string are falsy. *)
Definition truthy (s : option string) : option string :=
  match s with
  | Some EmptyString => None
  | _ => s
  end.

(** Lines 90-123, the loop over [links].  The second component is the
    message of the exception that left the loop ([new URL(link)], line 94),
    if any; the mutations made before it stay. *)
Fixpoint enqueue_links (origin : string) (links : list string) (g : Globals)
  : Globals * option string :=
  match links with
  | [] => (g, None)
  | link :: rest =>
      if decide (link ∈ queuedLinks g) then enqueue_links origin rest g
      else
        let g1 := queuedLinks_add link g in
        match URL_origin link with
        | Throw message => (g1, Some message)
        | Ok linkOrigin =>
            let task := if String.eqb linkOrigin origin
                        then CheckLinks link else CheckExternal link in
            enqueue_links origin rest (totalLinks_incr (queue_push task g1))
        end
  end.

(** Lines 25-29: the call [checkLinks(url, origin)] up to its first
    [await]. *)
Definition checkLinks_call (url : string) (g : Globals) : Globals * Worker :=
  if decide (url ∈ visited g) then (g, AwaitTimeout)
  else (visited_add url g, AwaitFetch url).

(** Lines 50-56: a redirect with a [Location]. *)
Definition follow_redirect (url location : string) (g : Globals) : Globals :=
  match URL_href location url with
  | Throw message => checkLinks_catch url message g
  | Ok redirectURL =>
      if decide (redirectURL ∈ queuedLinks g) then g
      else totalLinks_incr (queuedLinks_add redirectURL
             (queue_push (CheckLinks redirectURL) g))
  end.

(** Lines 30-62: [checkLinks] from the fulfilment of [fetch] to its return or
    to [await response.text()]. *)
Definition checkLinks_response (url : string) (response : Response) (g : Globals)
  : Globals * Worker :=
  let st := response_status response in
  let g1 := checkedLinks_push (mkLink url (Code st) None) (checked_incr g) in
  if 400 <=? st then
    (deadLinks_push (mkLink url (Code st) None) g1, AwaitTimeout)
  else if (300 <=? st) && (st <? 400) then
    match truthy (header_location response) with
    | None =>
        (deadLinks_push
           (mkLink url (Code st) (Some "Redirect with no Location header")) g1,
         AwaitTimeout)
    | Some location => (follow_redirect url location g1, AwaitTimeout)
    end
  else if negb (JS.includes "text/html" (default "" (header_content_type response)))
  then (g1, AwaitTimeout)
  else (g1, AwaitText url response).

(** Lines 29 and 124-127: [fetch] settles. *)
Definition checkLinks_fetched (url : string) (r : FetchResult) (g : Globals)
  : Globals * Worker :=
  match r with
  | Fulfilled response => checkLinks_response url response g
  | Rejected message => (checkLinks_catch url message g, AwaitTimeout)
  end.

(** Lines 62-123: [response.text()] settles. *)
Definition checkLinks_text (url origin : string) (response : Response) (g : Globals)
  : Globals :=
  match response_anchors response with
  | Throw message => checkLinks_catch url message g
  | Ok anchors =>
      match enqueue_links origin (extract_links url anchors) g with
      | (g', None) => g'
      | (g', Some message) => checkLinks_catch url message g'
      end
  end.

(** Lines 103-118: the external-link task once its [fetch] settles. *)
Definition external_fetched (link : string) (r : FetchResult) (g : Globals) : Globals :=
  match r with
  | Fulfilled response =>
      let st := response_status response in
      let g1 := checkedLinks_push (mkLink link (Code st) None) (checked_incr g) in
      if 400 <=? st then deadLinks_push (mkLink link (Code st) None) g1 else g1
  | Rejected message =>
      deadLinks_push (mkLink link FETCH_ERROR (Some message)) g
  end.

(** ** [processQueue] *)

(** A task is called (line 139) and runs to its first [await]. *)
Definition task_call (task : Task) (g : Globals) : Globals * Worker :=
  match task with
  | CheckLinks url => checkLinks_call url g
  | CheckExternal link => (g, AwaitFetchExternal link)
  end.

(** Lines 137-139: the loop test, [queue.shift()] and the call of the task. *)
Definition worker_loop (g : Globals) : Globals * Worker :=
  match queue g with
  | [] => (g, Returned)
  | task :: rest => task_call task (queue_set rest g)
  end.

(** The promise a worker awaits settles and the worker runs to its next
    [await]. *)
Definition resume (origin : string) (w : Worker) (g : Globals) : Globals * Worker :=
  match w with
  | AwaitFetch url => checkLinks_fetched url (fetch url) g
  | AwaitText url response => (checkLinks_text url origin response g, AwaitTimeout)
  | AwaitFetchExternal link => (external_fetched link (fetch link) g, AwaitTimeout)
  | AwaitTimeout => worker_loop g
  | Returned => (g, Returned)
  end.

(** The module state together with the workers of [processQueue]. *)
Record Sys := mkSys {
  globals : Globals;
  workers : list Worker;
}.

(** One turn of the event loop: the promise worker [i] awaits settles. *)
Definition step (origin : string) (s : Sys) (i : nat) : Sys :=
  match workers s !! i with
  | None => s
  | Some w =>
      let '(g', w') := resume origin w (globals s) in
      mkSys g' (<[i := w']> (workers s))
  end.

(** [Array.from({ length }, async () => ...)], line 136: the workers are
    called one after the other and each runs to its first [await] (or
    returns) before the next one is called. *)
Fixpoint start_workers (n : nat) (s : Sys) : Sys :=
  match n with
  | O => s
  | S n' =>
      let '(g', w) := worker_loop (globals s) in
      start_workers n' (mkSys g' (workers s ++ [w]))
  end.

(** A run: the workers are started, then promises settle in the order
    [sched]. *)
Definition run (origin : string) (sched : list nat) (s : Sys) : Sys :=
  foldl (step origin) s sched.

(** [await Promise.all(workers)] is over once every worker has returned. *)
Definition all_returned (s : Sys) : bool :=
  forallb (fun w => match w with Returned => true | _ => false end) (workers s).

End CheckLinks.

(** ** [main] *)

(** A line written by [console.log] or by [console.error].  The progress line
    that [updateStatus] rewrites in place on the terminal is kept apart, see
    [progress] below. *)
Inductive Line :=
  | log (text : string)
  | error_line (text : string)
  | error_object (text message : string).
      (** [console.error(text, err)] for an error object [err] with this
          [message]: [text], a space, and [err] as Node renders it, with its
          name, its message, its stack trace and its own properties *)

Definition bytes (l : list nat) : string :=
  foldr (fun n s => String (ascii_of_nat n) s) EmptyString l.

Definition LF : string := bytes [10%nat].
Definition ESC : string := bytes [27%nat].
(** U+2705 and U+274C in UTF-8. *)
Definition check_mark : string := bytes [226; 156; 133]%nat.
Definition cross_mark : string := bytes [226; 157; 140]%nat.

Definition usage : string :=
  "Usage: node dead-link-checker.js <URL> [-v] [--concurrent=<number>] [--delay=<milliseconds>]".

Definition no_dead_links : string :=
  ESC +:+ "[32m" +:+ check_mark +:+ " No dead links found." +:+ ESC +:+ "[0m".

Definition dead_links_found : string :=
  ESC +:+ "[31m" +:+ cross_mark +:+ " Dead links found:" +:+ ESC +:+ "[0m".

(** [`${status}`] *)
Definition status_text (s : Status) : string :=
  match s with
  | Code n => JS.toString n
  | FETCH_ERROR => "FETCH_ERROR"
  end.

(** Lines 213-215: the line printed for one dead link; an absent or empty
    [error] is falsy. *)
Definition dead_line (r : LinkRecord) : string :=
  "- " +:+ url r +:+ " (Status: " +:+ status_text (status r) +:+
  from_option (fun e => ", Error: " +:+ e) "" (truthy (error r)) +:+ ")".

(** Lines 163-166 of [printVerboseSummary]. *)
Definition summary_line (r : LinkRecord) : string :=
  "- " +:+ url r +:+ " (Status: " +:+
  match truthy (error r) with
  | Some e => "FETCH_ERROR (" +:+ e +:+ ")"
  | None => status_text (status r)
  end +:+ ")".

Definition printVerboseSummary (g : Globals) : list Line :=
  log (LF +:+ "Summary of checked links:") :: (log ∘ summary_line <$> checkedLinks g).

(** [args.find((arg) => arg.startsWith(name))?.split("=")[1] || dflt] *)
Definition option_value (name dflt : string) (args : list string) : string :=
  match List.find (JS.startsWith name) args ≫= JS.split_1 "=" with
  | None | Some EmptyString => dflt
  | Some v => v
  end.

(** The command line as [main] reads it, lines 173-183. *)
Record Options := mkOptions {
  inputURL : option string;
  verbose : bool;
  concurrentRequests : JS.number;
  delay : JS.number;
}.

Definition parse_args (args : list string) : Options :=
  {| inputURL := List.find (fun arg => negb (JS.startsWith "-" arg)) args;
     verbose := bool_decide ("-v" ∈ args);
     concurrentRequests := JS.parseInt (option_value "--concurrent=" "25" args);
     delay := JS.parseInt (option_value "--delay=" "10" args) |}.

(** How a process ends: [process.exit(code)] after the lines [console]. *)
Record Exit := mkExit {
  code : Z;
  console : list Line;
}.

(** The last-resort handler of lines 221-224, for the error with this
    [message]. *)
Definition unexpected (before : list Line) (message : string) : Exit :=
  mkExit 1 (before ++ [error_object "An unexpected error occurred:" message]).

Section Main.

Context {platform : Platform}.

(** [Array.from({ length: concurrentRequests }, ...)]: the length goes through
    [ToLength], and an array of more than [2^32 - 1] elements cannot be
    created. *)
Definition worker_count (n : JS.number) : Result nat :=
  if (2 ^ 32 - 1 <? JS.toLength n)
  then Throw "Invalid array length"
  else Ok (Z.to_nat (JS.toLength n)).

(** [main] up to [await processQueue(...)], lines 173-199, with
    [processQueue] up to [await Promise.all(workers)], line 144. *)
Inductive Started :=
  | Ended (e : Exit)
  | Crawling (origin : string) (before : list Line) (s : Sys).

Definition starting (u : string) : Line :=
  log ("Starting to check links on: " +:+ u +:+ LF).

Definition seeded (u : string) : Globals :=
  totalLinks_incr (queuedLinks_add u (queue_push (CheckLinks u) initial)).

Definition main_start (args : list string) : Started :=
  let o := parse_args args in
  match truthy (inputURL o) with
  | None => Ended (mkExit 1 [error_line usage])
  | Some u =>
      match URL_origin u with
      | Throw message => Ended (unexpected [] message)
      | Ok origin =>
          match worker_count (concurrentRequests o) with
          | Throw message => Ended (unexpected [starting u] message)
          | Ok n => Crawling origin [starting u] (start_workers n (mkSys (seeded u) []))
          end
      end
  end.

(** Lines 145 and 201-218: what follows [await Promise.all(workers)]. *)
Definition main_finish (verbose : bool) (before : list Line) (g : Globals) : Exit :=
  let g := isProcessing_set false g in
  let lines := before ++ [log LF] ++ (if verbose then printVerboseSummary g else []) in
  match deadLinks g with
  | [] => mkExit 0 (lines ++ [log no_dead_links])
  | dead => mkExit 1 (lines ++ error_line dead_links_found :: (error_line ∘ dead_line <$> dead))
  end.

(** The state of the crawl after the promises settled in the order [sched];
    [None] when [main] ended before crawling. *)
Definition crawl (args : list string) (sched : list nat) : option Sys :=
  match main_start args with
  | Ended _ => None
  | Crawling origin _ s => Some (run origin sched s)
  end.

(** The whole program: [None] while some worker has not returned when
    [sched] is exhausted, that is, while [main] still awaits
    [processQueue]. *)
Definition main (args : list string) (sched : list nat) : option Exit :=
  match main_start args with
  | Ended e => Some e
  | Crawling origin before s =>
      let s' := run origin sched s in
      if all_returned s'
      then Some (main_finish (verbose (parse_args args)) before (globals s'))
      else None
  end.

End Main.

(** ** [updateStatus] *)

(** U+23F3 in UTF-8. *)
Definition hourglass : string := bytes [226; 143; 179]%nat.

(** [updateStatus], lines 151-156: the text written on the terminal after the
    cursor is moved to the start of the line. *)
Definition updateStatus (g : Globals) : string :=
  (if isProcessing g then hourglass else "") +:+ " " +:+
  ("Checked: " +:+ JS.toString (Z.of_nat (checked g)) +:+ "/" +:+
   JS.toString (Z.of_nat (totalLinks g)) +:+ " links").

(** What the worker [w] writes on the terminal when the promise it awaits
    settles: [updateStatus] is called at lines 31 and 105, when a [fetch] is
    fulfilled, right after [checked++]. *)
Definition status_written {platform : Platform} (w : Worker) (g : Globals) : list string :=
  match w with
  | AwaitFetch url | AwaitFetchExternal url =>
      match fetch url with
      | Fulfilled _ => [updateStatus (checked_incr g)]
      | Rejected _ => []
      end
  | _ => []
  end.

(** The progress lines written as the promises settle in the order [sched]. *)
Fixpoint status_lines {platform : Platform} (origin : string) (sched : list nat) (s : Sys)
  : list string :=
  match sched with
  | [] => []
  | i :: sched' =>
      from_option (fun w => status_written w (globals s)) [] (workers s !! i)
      ++ status_lines origin sched' (step origin s i)
  end.

(** Everything [updateStatus] writes in a run: one line by [main], line 198,
    before the workers are created; then the lines of the workers. *)
Definition progress {platform : Platform} (args : list string) (sched : list nat)
  : list string :=
  match truthy (inputURL (parse_args args)) with
  | None => []
  | Some u =>
      match URL_origin u with
      | Throw _ => []
      | Ok origin =>
          updateStatus (seeded u) ::
          match worker_count (concurrentRequests (parse_args args)) with
          | Throw _ => []
          | Ok n => status_lines origin sched (start_workers n (mkSys (seeded u) []))
          end
      end
  end.

(** ** Concrete platforms

    A platform given by three finite tables, for running the program on a
    concrete site: what [new URL(href, base).href] is for the pairs listed
    (per base), what [new URL(u).origin] is, and what [fetch] answers.  Off the
    tables [URL] throws and [fetch] rejects. *)

Fixpoint assoc {A : Type} (k : string) (t : list (string * A)) : option A :=
  match t with
  | [] => None
  | (k', v) :: t' => if String.eqb k k' then Some v else assoc k t'
  end.

Definition table_platform
    (hrefs : list (string * list (string * string)))
    (origins : list (string * string))
    (net : list (string * FetchResult)) : Platform :=
  {| URL_href href base :=
       match assoc base hrefs ≫= assoc href with
       | Some r => Ok r
       | None => Throw "Invalid URL"
       end;
     URL_origin u :=
       match assoc u origins with
       | Some o => Ok o
       | None => Throw "Invalid URL"
       end;
     fetch u := default (Rejected "fetch failed") (assoc u net) |}.

(** A 200 response serving an HTML page with the given anchors. *)
Definition html_page (anchors : list (option string)) : Response :=
  mkResponse 200 None (Some "text/html; charset=utf-8") (Ok anchors).

(** A response with no body of interest. *)
Definition plain (st : Z) (location : option string) : Response :=
  mkResponse st location None (Ok []).

(** ** Sites

    The concrete sites on which the program is run below. *)

(** The platform of a page [https://site.test/] on which the references
    [/a/b] and [/a/b/] occur. *)
Definition site_ab : Platform :=
  table_platform
    [("https://site.test/",
      [("/a/b", "https://site.test/a/b"); ("/a/b/", "https://site.test/a/b/")])]
    [] [].

(** A page [https://site.test/about] linking to the root of its site. *)
Definition site_root : Platform :=
  table_platform
    [("https://site.test/about", [("/", "https://site.test/")])] [] [].

(** A site whose only page links to one external address that cannot be
    reached. *)
Definition site_external_down : Platform :=
  table_platform
    [("https://site.test/", [("https://other.test/x", "https://other.test/x")])]
    [("https://site.test/", "https://site.test");
     ("https://other.test/x", "https://other.test")]
    [("https://site.test/", Fulfilled (html_page [Some "https://other.test/x"]));
     ("https://other.test/x", Rejected "fetch failed")].

(** A site whose only page links to two external addresses, one answering
    301 without a [Location] header, the other 302 with one. *)
Definition site_external_redirect : Platform :=
  table_platform
    [("https://site.test/",
      [("https://other.test/gone", "https://other.test/gone");
       ("https://other.test/moved", "https://other.test/moved")]);
     ("https://other.test/moved", [("https://other.test/new", "https://other.test/new")])]
    [("https://site.test/", "https://site.test");
     ("https://other.test/gone", "https://other.test");
     ("https://other.test/moved", "https://other.test")]
    [("https://site.test/",
      Fulfilled (html_page [Some "https://other.test/gone"; Some "https://other.test/moved"]));
     ("https://other.test/gone", Fulfilled (plain 301 None));
     ("https://other.test/moved", Fulfilled (plain 302 (Some "https://other.test/new")))].

(** A seed answering 301 without a [Location] header. *)
Definition site_seed_redirect : Platform :=
  table_platform []
    [("https://site.test/", "https://site.test")]
    [("https://site.test/", Fulfilled (plain 301 None))].

(** A site whose root page links to the root, crawled from the URL of the
    root written with its slash. *)
Definition site_root_link : Platform :=
  table_platform
    [("https://site.test/", [("/", "https://site.test/")]);
     ("https://site.test", [("/", "https://site.test/")])]
    [("https://site.test/", "https://site.test");
     ("https://site.test", "https://site.test")]
    [("https://site.test/", Fulfilled (html_page [Some "/"]));
     ("https://site.test", Fulfilled (html_page [Some "/"]))].

(** A site whose only page links to a page that is missing and to one that
    cannot be reached, both on the site. *)
Definition site_dead : Platform :=
  table_platform
    [("https://site.test/",
      [("/missing", "https://site.test/missing"); ("/down", "https://site.test/down")])]
    [("https://site.test/", "https://site.test");
     ("https://site.test/missing", "https://site.test");
     ("https://site.test/down", "https://site.test")]
    [("https://site.test/", Fulfilled (html_page [Some "/missing"; Some "/down"]));
     ("https://site.test/missing", Fulfilled (plain 404 None));
     ("https://site.test/down", Rejected "fetch failed")].


(** ** Vocabulary of the statements *)

(** The behaviour of the URL parser the equivalence rests on: a reference
    [path] resolved against [base] replaces the path of [base], so the result
    ends in [path], and a slash added to the reference is a slash added to the
    result; when [base] is no base at all, both references throw. *)
Definition keeps_trailing_slash {platform : Platform} (path base : string) : Prop :=
  match URL_href path base with
  | Ok r =>
      exists site, r = site +:+ path /\
        URL_href (path +:+ "/") base = Ok (site +:+ path +:+ "/")
  | Throw _ => exists m, URL_href (path +:+ "/") base = Throw m
  end.


(** A status that makes a link dead by itself. *)
Definition is_dead (st : Status) : Prop :=
  match st with
  | Code n => 400 <= n
  | FETCH_ERROR => True
  end.

(** What an entry of [deadLinks] can be. *)
Definition dead_entry (r : LinkRecord) : Prop :=
  match status r with
  | Code n =>
      400 <= n \/
      (300 <= n < 400 /\ error r = Some "Redirect with no Location header")
  | FETCH_ERROR => True
  end.

(** Every entry of [deadLinks] is one, and every dead entry of [checkedLinks]
    is in [deadLinks]. *)
Definition dead_links_sound (g : Globals) : Prop :=
  (forall d, d ∈ deadLinks g -> dead_entry d) /\
  (forall r, r ∈ checkedLinks g -> is_dead (status r) -> r ∈ deadLinks g).

(** How often [u] occurs in a list of URLs. *)
Fixpoint occ (u : string) (l : list string) : nat :=
  match l with
  | [] => O
  | x :: l' => ((if decide (x = u) then 1 else 0) + occ u l')%nat
  end.

(** The URL a suspended worker is fetching for [checkLinks], fetching for an
    external-link task, or reading the body of. *)
Definition in_fetch (w : Worker) : list string :=
  match w with AwaitFetch u => [u] | _ => [] end.

Definition in_external (w : Worker) : list string :=
  match w with AwaitFetchExternal u => [u] | _ => [] end.

Definition in_text (w : Worker) : list string :=
  match w with AwaitText u _ => [u] | _ => [] end.

(** The URLs of the records of [checkedLinks] that carry an HTTP status, and
    of those that carry [FETCH_ERROR]. *)
Definition coded (l : list LinkRecord) : list string :=
  omap (fun r => match status r with Code _ => Some (url r) | FETCH_ERROR => None end) l.

Definition failed (l : list LinkRecord) : list string :=
  omap (fun r => match status r with Code _ => None | FETCH_ERROR => Some (url r) end) l.

(** The number of records for [u] in [checkedLinks] and in [deadLinks]. *)
Definition recorded (u : string) (g : Globals) : nat :=
  (occ u (url <$> checkedLinks g) + occ u (url <$> deadLinks g))%nat.

(** [new URL(u)] throws. *)
Definition throws {platform : Platform} (u : string) : Prop :=
  exists m, URL_origin u = Throw m.

(** What holds of one URL [u] throughout a crawl, [nf], [ne] and [nt] being
    the numbers of workers fetching [u] for [checkLinks], fetching it for an
    external-link task, and reading its body: [u] has at most one of a queued
    task, a pending fetch and a status record; at most one of a queued task, a
    [checkLinks] call in progress and an error record; none of them unless it
    is in [queuedLinks]; if it is, it has a task, a fetch or a record, unless
    it is no URL; if it is in [visited], a fetch or a record in
    [checkedLinks]; and its body is read only after its status was
    recorded. *)
Definition url_inv {platform : Platform} (u : string) (g : Globals) (nf ne nt : nat) : Prop :=
  (occ u (task_url <$> queue g) + nf + ne + occ u (coded (checkedLinks g)) <= 1)%nat /\
  (occ u (task_url <$> queue g) + nf + nt + occ u (failed (checkedLinks g)) <= 1)%nat /\
  (u ∉ queuedLinks g ->
     (occ u (task_url <$> queue g) + nf + ne + nt + occ u (coded (checkedLinks g))
      + occ u (failed (checkedLinks g)) = 0)%nat) /\
  (u ∈ queuedLinks g ->
     (0 < occ u (task_url <$> queue g) + nf + ne + recorded u g)%nat \/ throws u) /\
  (u ∈ visited g ->
     (0 < nf + occ u (coded (checkedLinks g)) + occ u (failed (checkedLinks g)))%nat) /\
  (nt <= occ u (coded (checkedLinks g)))%nat.

(** The invariant of the whole system. *)
Definition sys_inv {platform : Platform} (s : Sys) : Prop :=
  forall v, url_inv v (globals s) (occ v (workers s ≫= in_fetch))
                    (occ v (workers s ≫= in_external))
                    (occ v (workers s ≫= in_text)).

(** While tasks are queued some worker has not returned. *)
Definition busy (s : Sys) : Prop :=
  workers s ≠ [] -> queue (globals s) ≠ [] -> exists w, w ∈ workers s /\ w ≠ Returned.

(** [k] resumptions of one worker. *)
Fixpoint drive {platform : Platform} (origin : string) (k : nat) (p : Globals * Worker)
  : Globals * Worker :=
  match k with
  | O => p
  | S k' => drive origin k' (resume origin p.2 p.1)
  end.

(** The invariant of a URL seen from one worker, [kf], [ke] and [kt] being
    the shares of the other workers. *)
Definition worker_inv {platform : Platform}
    (g : Globals) (w : Worker) (kf ke kt : string -> nat) : Prop :=
  forall v, url_inv v g (occ v (in_fetch w) + kf v) (occ v (in_external w) + ke v)
                    (occ v (in_text w) + kt v).













(** The number of turns of the first worker in a schedule. *)
Definition first_worker_turns (sched : list nat) : nat :=
  length (filter (fun i => i = O) sched).

(** Whether a worker awaits a [fetch]. *)
Definition fetches (w : Worker) : nat :=
  match w with
  | AwaitFetch _ | AwaitFetchExternal _ => 1
  | _ => 0
  end.

(** The number of requests in flight. *)
Definition in_flight (s : Sys) : nat := sum_list_with fetches (workers s).

(** What the counters account for: every task ever created is still queued,
    or being fetched, or was answered, or failed. *)
Definition counters_inv (g : Globals) (flying : nat) : Prop :=
  (checked g + length (queue g) + flying <= totalLinks g)%nat /\
  checked g = length (coded (checkedLinks g)) /\
  isProcessing g = true.

(** The module state only grows. *)
Definition grows (g g' : Globals) : Prop :=
  checkedLinks g `prefix_of` checkedLinks g' /\
  deadLinks g `prefix_of` deadLinks g' /\
  visited g ⊆ visited g' /\
  queuedLinks g ⊆ queuedLinks g' /\
  (checked g <= checked g')%nat /\
  (totalLinks g <= totalLinks g')%nat.

(** Every entry of [deadLinks] with an HTTP status has its record in
    [checkedLinks]. *)
Definition dead_are_checked (g : Globals) : Prop :=
  forall d n, d ∈ deadLinks g -> status d = Code n ->
              mkLink (url d) (Code n) None ∈ checkedLinks g.

(** A set of addresses that holds every address the pages of its members lead
    to: the target of a redirect, and the normalized links of an HTML page
    answered with a status below 300. *)
Definition closed_site {platform : Platform} (U : gset string) : Prop :=
  forall u response, u ∈ U -> fetch u = Fulfilled response ->
    (forall location target,
       300 <= response_status response < 400 ->
       truthy (header_location response) = Some location ->
       URL_href location u = Ok target -> target ∈ U) /\
    (forall anchors l,
       response_status response < 300 ->
       JS.includes "text/html" (default "" (header_content_type response)) = true ->
       response_anchors response = Ok anchors ->
       l ∈ extract_links u anchors -> l ∈ U).

(** How many resumptions a worker is from the head of its loop, at most, plus
    one for the last look at the queue. *)
Definition phase (w : Worker) : nat :=
  match w with
  | AwaitFetch _ => 3
  | AwaitText _ _ => 2
  | AwaitFetchExternal _ => 2
  | AwaitTimeout => 1
  | Returned => 0
  end.

(** The work left: three resumptions for every address not yet queued and for
    every queued task, and the worker's own. *)
Definition work_left (U : gset string) (g : Globals) (w : Worker) : nat :=
  (3 * size (U ∖ queuedLinks g) + 3 * length (queue g) + phase w)%nat.

(** The tasks and the worker stay within the site. *)
Definition within {platform : Platform} (U : gset string) (g : Globals) (w : Worker) : Prop :=
  (forall t, t ∈ queue g -> task_url t ∈ U) /\
  match w with
  | AwaitFetch x => x ∈ U
  | AwaitText x response =>
      x ∈ U /\ fetch x = Fulfilled response /\
      response_status response < 300 /\
      JS.includes "text/html" (default "" (header_content_type response)) = true
  | _ => True
  end.




(** * Properties *)

(** ** String facts *)

Lemma length_append (a b : string) :
  String.length (a +:+ b) = (String.length a + String.length b)%nat.
Proof.
  induction a as [|c a IH]; [reflexivity|].
  change (String c a +:+ b) with (String c (a +:+ b)).
  cbn [String.length]. rewrite IH. reflexivity.
Qed.

Lemma endsWith_app_nonempty (suf a b : string) :
  String.length suf = 1%nat -> String.length b ≠ O ->
  JS.endsWith suf (a +:+ b) = JS.endsWith suf b.
Proof.
  intros Hsuf Hb. induction a as [|c a IH]; [reflexivity|].
  change (JS.endsWith suf (String c a +:+ b))
    with (String.eqb (String c (a +:+ b)) suf || JS.endsWith suf (a +:+ b)).
  rewrite IH.
  destruct (String.eqb_spec (String c (a +:+ b)) suf) as [E|_]; [|reflexivity].
  exfalso. rewrite <- E in Hsuf. cbn [String.length] in Hsuf.
  rewrite length_append in Hsuf. lia.
Qed.

Lemma slice_0_m1_app (a : string) (c : ascii) :
  JS.slice_0_m1 (a +:+ String c EmptyString) = a.
Proof.
  induction a as [|d a IH]; [reflexivity|].
  change (String d a +:+ String c EmptyString)
    with (String d (a +:+ String c EmptyString)).
  cbn [JS.slice_0_m1]. rewrite IH.
  destruct a; reflexivity.
Qed.

(** A resolved link ending in a slash loses exactly that slash. *)
Lemma normalizedLink_slash (r : string) : normalizedLink (r +:+ "/") = r.
Proof.
  unfold normalizedLink.
  rewrite endsWith_app_nonempty by (simpl; congruence).
  simpl. apply slice_0_m1_app.
Qed.

(** A resolved link not ending in a slash is kept. *)
Lemma normalizedLink_other (r : string) :
  JS.endsWith "/" r = false -> normalizedLink r = r.
Proof. unfold normalizedLink. intros ->. reflexivity. Qed.

Lemma append_assoc (a b c : string) : (a +:+ b) +:+ c = a +:+ b +:+ c.
Proof.
  induction a as [|x a IH]; [reflexivity|].
  change ((String x a +:+ b) +:+ c) with (String x ((a +:+ b) +:+ c)).
  rewrite IH. reflexivity.
Qed.

(** ** Normalization (lines 65-88) *)

(** C4. Whatever the base, the hrefs [/a/b/], [/a/b] and [/a/b#frag] normalize
    to the same address (or are all rejected): the fragment is split off
    before the reference is resolved, and the trailing slash of the resolved
    link is removed. *)
Theorem normalization_equivalence {platform : Platform} (base : string) :
  keeps_trailing_slash "/a/b" base ->
  normalize (Some "/a/b/") base = normalize (Some "/a/b") base /\
  normalize (Some "/a/b#frag") base = normalize (Some "/a/b") base.
Proof.
  intros Hres. split; [|reflexivity].
  unfold normalize.
  change (from_option JS.trim "" (Some "/a/b/")) with "/a/b/".
  change (from_option JS.trim "" (Some "/a/b")) with "/a/b".
  change (href_accepted "/a/b/") with true.
  change (href_accepted "/a/b") with true.
  change (JS.split_0 "#" "/a/b/") with ("/a/b" +:+ "/").
  change (JS.split_0 "#" "/a/b") with "/a/b".
  unfold keeps_trailing_slash in Hres.
  destruct (URL_href "/a/b" base) as [r|m].
  - destruct Hres as (site & -> & ->). cbn iota. f_equal.
    rewrite <- append_assoc, normalizedLink_slash.
    symmetry. apply normalizedLink_other.
    rewrite endsWith_app_nonempty; [reflexivity | reflexivity | discriminate].
  - destruct Hres as (m' & ->). reflexivity.
Qed.

Lemma normalization_equivalence_witness :
  @keeps_trailing_slash site_ab "/a/b" "https://site.test/" /\
  @normalize site_ab (Some "/a/b/") "https://site.test/" = Some "https://site.test/a/b" /\
  @normalize site_ab (Some "/a/b#frag") "https://site.test/" = Some "https://site.test/a/b".
Proof.
  assert (H : @keeps_trailing_slash site_ab "/a/b" "https://site.test/").
  { exists "https://site.test". split; reflexivity. }
  split; [exact H|].
  destruct (@normalization_equivalence site_ab "https://site.test/" H) as [H1 H2].
  split; [rewrite H1 | rewrite H2]; reflexivity.
Defined.

(** The href [/] resolves to the root [https://site.test/], and is normalized
    to [https://site.test]: the slash of the empty root path is removed. *)
Lemma root_slash_is_stripped :
  @URL_href site_root "/" "https://site.test/about" = Ok "https://site.test/" /\
  @normalize site_root (Some "/") "https://site.test/about" = Some "https://site.test".
Proof. split; reflexivity. Qed.

(** C5, as the code has it. Whenever the resolved link ends in a slash, that
    slash is removed, whatever precedes it: a link resolved to the root
    [scheme://host/] becomes [scheme://host]. *)
Theorem trailing_slash_always_stripped {platform : Platform}
    (attr : option string) (base r : string) :
  href_accepted (from_option JS.trim "" attr) = true ->
  URL_href (JS.split_0 "#" (from_option JS.trim "" attr)) base = Ok (r +:+ "/") ->
  normalize attr base = Some r.
Proof.
  intros Hacc Hres. unfold normalize.
  rewrite Hacc, Hres. f_equal. apply normalizedLink_slash.
Qed.

Lemma trailing_slash_always_stripped_witness :
  @normalize site_root (Some "/") "https://site.test/about" = Some "https://site.test".
Proof.
  apply (@trailing_slash_always_stripped site_root (Some "/")
           "https://site.test/about" "https://site.test"); reflexivity.
Defined.

(** White space that is not ASCII is removed as well: an href that is a
    no-break space followed by [mailto:x/] is an excluded [mailto:] link, and
    [/x] followed by a no-break space is [/x]. *)
Lemma trim_no_break_space {platform : Platform} (base : string) :
  JS.trim (bytes [194; 160]%nat +:+ "mailto:x/" +:+ bytes [226; 128; 168]%nat) = "mailto:x/" /\
  normalize (Some (bytes [194; 160]%nat +:+ "mailto:x/")) base = None /\
  JS.trim ("/x" +:+ bytes [194; 160]%nat) = "/x".
Proof. repeat split; vm_compute; reflexivity. Qed.

(** ** The worker pool (lines 135-146) *)

Section Pool.

Context {platform : Platform}.

Lemma run_cons (origin : string) (i : nat) (sched : list nat) (s : Sys) :
  run origin (i :: sched) s = run origin sched (step origin s i).
Proof. reflexivity. Qed.

(** A property kept by every step is kept by every run. *)
Lemma run_invariant (origin : string) (I : Sys -> Prop) :
  (forall s i, I s -> I (step origin s i)) ->
  forall sched s, I s -> I (run origin sched s).
Proof.
  intros Hstep sched. induction sched as [|i sched IH]; intros s Hs; [exact Hs|].
  rewrite run_cons. apply IH, Hstep, Hs.
Qed.

(** With no worker nothing ever happens. *)
Lemma run_no_worker (origin : string) (sched : list nat) (g : Globals) :
  run origin sched (mkSys g []) = mkSys g [].
Proof.
  apply (run_invariant origin (fun s => s = mkSys g [])); [|reflexivity].
  intros s i ->. reflexivity.
Qed.

(** A worker called on an empty queue returns at once. *)
Lemma start_workers_empty_queue (n : nat) (g : Globals) (ws : list Worker) :
  queue g = [] ->
  start_workers n (mkSys g ws) = mkSys g (ws ++ replicate n Returned).
Proof.
  intros Hq. revert ws. induction n as [|n IH]; intros ws.
  - cbn. rewrite app_nil_r. reflexivity.
  - cbn [start_workers globals workers]. unfold worker_loop. rewrite Hq.
    rewrite IH. rewrite <- app_assoc. reflexivity.
Qed.

(** The first worker takes the seed, the only task there is. *)
Lemma start_workers_seeded (n : nat) (u : string) :
  start_workers (S n) (mkSys (seeded u) []) =
  mkSys (visited_add u (queue_set [] (seeded u))) (AwaitFetch u :: replicate n Returned).
Proof.
  cbn [start_workers globals workers]. unfold worker_loop.
  change (queue (seeded u)) with [CheckLinks u].
  cbn [task_call]. unfold checkLinks_call.
  destruct (decide (u ∈ visited (queue_set [] (seeded u)))) as [Hin|_].
  - cbn in Hin. set_solver.
  - rewrite start_workers_empty_queue by reflexivity. reflexivity.
Qed.

(** A returned worker stays returned. *)
Lemma step_returned_tail (origin : string) (g : Globals) (w : Worker) (k i : nat) :
  exists g' w', step origin (mkSys g (w :: replicate k Returned)) i
                = mkSys g' (w' :: replicate k Returned).
Proof.
  unfold step. cbn [workers globals].
  destruct i as [|i].
  - cbn [lookup list_lookup]. destruct (resume origin w g) as [g' w'].
    exists g', w'. reflexivity.
  - change ((w :: replicate k Returned) !! S i) with (replicate k Returned !! i).
    destruct (replicate k Returned !! i) as [w1|] eqn:E; [|eauto].
    apply lookup_replicate in E as [-> Hi].
    exists g, w. cbn [resume]. f_equal. cbn [insert list_insert]. f_equal.
    apply list_insert_id. apply lookup_replicate. auto.
Qed.

End Pool.

(** C1, on the code. In every run with two workers or more, every worker but
    the first finds the queue empty while the seed's task is in flight (its
    [fetch] is pending in the first worker) and returns at once instead of
    waiting; it never resumes, whatever the first worker's tasks enqueue
    later. *)
Theorem worker_returns_while_task_in_flight {platform : Platform}
    (origin u : string) (n : nat) (sched : list nat) :
  start_workers (S (S n)) (mkSys (seeded u) []) =
    mkSys (visited_add u (queue_set [] (seeded u)))
          (AwaitFetch u :: replicate (S n) Returned) /\
  exists w, workers (run origin sched (start_workers (S (S n)) (mkSys (seeded u) [])))
            = w :: replicate (S n) Returned.
Proof.
  split; [apply start_workers_seeded|].
  rewrite start_workers_seeded.
  set (I := fun s : Sys => exists g w, s = mkSys g (w :: replicate (S n) Returned)).
  assert (H : I (run origin sched
                   (mkSys (visited_add u (queue_set [] (seeded u)))
                          (AwaitFetch u :: replicate (S n) Returned)))).
  { apply run_invariant; [|unfold I; eauto].
    intros s i (g & w & ->).
    destruct (step_returned_tail origin g w (S n) i) as (g' & w' & ->).
    unfold I; eauto. }
  destruct H as (g & w & ->). eauto.
Qed.

(** ** Exit behaviour (lines 185-190 and 207-218) *)


Lemma all_returned_spec (s : Sys) :
  all_returned s = true <-> forall w, w ∈ workers s -> w = Returned.
Proof.
  unfold all_returned. rewrite forallb_forall. split; intros H w Hw.
  - apply list_elem_of_In, H in Hw. destruct w; congruence.
  - apply list_elem_of_In, H in Hw. rewrite Hw. reflexivity.
Qed.

(** What [Number.parseInt] reads: white space of any kind is skipped, what
    follows the digits is ignored, and an integer above [2^53] is rounded
    to a double. *)
Lemma parseInt_reads :
  JS.parseInt (bytes [194; 160]%nat +:+ "2") = JS.Int 2 /\
  JS.parseInt "-7x" = JS.Int (-7) /\
  JS.parseInt "abc" = JS.NaN /\
  JS.parseInt "9007199254740993" = JS.Int 9007199254740992 /\
  JS.parseInt "9007199254740995" = JS.Int 9007199254740996.
Proof. repeat split; vm_compute; reflexivity. Qed.


(** C8. Whenever the process exits: without a seed URL it exits 1 with the
    usage line and nothing was crawled; after a crawl, the exit code is 0
    exactly when [deadLinks] is empty, the last line then being the success
    line; and it is 1 otherwise, the last lines written then being the
    heading and one line per dead link, in order.  The line of a dead link
    holds its URL and its status, an HTTP status in decimal or the word
    FETCH_ERROR, and, where the record has a non-empty error message (every
    transport failure with a message, every redirect without [Location]),
    that message. *)
Theorem exit_behaviour {platform : Platform}
    (args : list string) (sched : list nat) (e : Exit) :
  main args sched = Some e ->
  (truthy (inputURL (parse_args args)) = None ->
     e = mkExit 1
           [error_line
              "Usage: node dead-link-checker.js <URL> [-v] [--concurrent=<number>] [--delay=<milliseconds>]"] /\
     crawl args sched = None) /\
  (forall s, crawl args sched = Some s ->
     all_returned s = true /\
     (code e = 0 <-> deadLinks (globals s) = []) /\
     (deadLinks (globals s) = [] -> last (console e) = Some (log no_dead_links)) /\
     (deadLinks (globals s) <> [] ->
        code e = 1 /\
        exists before,
          console e = before ++ error_line dead_links_found
                        :: (error_line ∘ dead_line <$> deadLinks (globals s)))) /\
  (forall u n,
     dead_line (mkLink u (Code n) None)
       = "- " +:+ u +:+ " (Status: " +:+ pretty n +:+ ")") /\
  (forall u n m, m <> "" ->
     dead_line (mkLink u (Code n) (Some m))
       = "- " +:+ u +:+ " (Status: " +:+ pretty n +:+ ", Error: " +:+ m +:+ ")") /\
  (forall u m, m <> "" ->
     dead_line (mkLink u FETCH_ERROR (Some m))
       = "- " +:+ u +:+ " (Status: FETCH_ERROR, Error: " +:+ m +:+ ")") /\
  (forall u, dead_line (mkLink u FETCH_ERROR (Some ""))
             = "- " +:+ u +:+ " (Status: FETCH_ERROR)").
Proof.
  intros Hmain. unfold main, crawl in *.
  split; [|split; [|split; [|split; [|split]]]].
  - intros Hno. unfold main_start in *. rewrite Hno in *.
    injection Hmain as <-. split; reflexivity.
  - intros s Hs. destruct (main_start args) as [e0|origin before s0]; [discriminate|].
    injection Hs as <-.
    destruct (all_returned (run origin sched s0)) eqn:Hall; [|discriminate].
    injection Hmain as <-. split; [reflexivity|].
    unfold main_finish. cbn [deadLinks isProcessing_set].
    destruct (deadLinks (globals (run origin sched s0))) as [|d dead] eqn:Hd.
    + cbn [code console]. split; [tauto|]. split; [|congruence].
      intros _. rewrite last_snoc. reflexivity.
    + cbn [code console]. split; [split; discriminate|]. split; [discriminate|].
      intros _. split; [reflexivity|]. eauto.
  - intros u n. reflexivity.
  - intros u n m Hm. unfold dead_line. cbn [url status error status_text].
    destruct m; [contradiction|]. cbn [truthy from_option]. unfold JS.toString.
    rewrite !append_assoc. reflexivity.
  - intros u m Hm. unfold dead_line. cbn [url status error status_text].
    destruct m; [contradiction|]. cbn [truthy from_option].
    rewrite !append_assoc. reflexivity.
  - intros u. reflexivity.
Qed.


Lemma exit_behaviour_witness :
  let args := ["https://site.test/"; "--concurrent=1"] in
  let sched := [O; O; O; O; O; O; O] in
  let e := mkExit 1
             [starting "https://site.test/"; log LF; error_line dead_links_found;
              error_line "- https://site.test/missing (Status: 404)";
              error_line "- https://site.test/down (Status: FETCH_ERROR, Error: fetch failed)"] in
  @main site_dead args sched = Some e /\
  (deadLinks ∘ globals <$> @crawl site_dead args sched)
    = Some [mkLink "https://site.test/missing" (Code 404) None;
            mkLink "https://site.test/down" FETCH_ERROR (Some "fetch failed")] /\
  forall s, @crawl site_dead args sched = Some s ->
    (code e = 0 <-> deadLinks (globals s) = []).
Proof.
  intros args sched e.
  assert (H : @main site_dead args sched = Some e) by (vm_compute; reflexivity).
  split; [exact H|]. split; [vm_compute; reflexivity|]. intros s Hs.
  destruct (@exit_behaviour site_dead _ _ _ H) as (_ & Hc & _).
  apply (Hc s Hs).
Defined.

(** ** Transport failures (lines 112-118 and 124-127) *)

(** The two [catch] blocks side by side: [checkLinks] records the failure in
    both lists, the external-link task in [deadLinks] only. *)
Lemma fetch_rejection_paths {platform : Platform} (u m : string) (g : Globals) :
  checkedLinks (checkLinks_fetched u (Rejected m) g).1
    = checkedLinks g ++ [mkLink u FETCH_ERROR (Some m)] /\
  deadLinks (checkLinks_fetched u (Rejected m) g).1
    = deadLinks g ++ [mkLink u FETCH_ERROR (Some m)] /\
  checkedLinks (external_fetched u (Rejected m) g) = checkedLinks g /\
  deadLinks (external_fetched u (Rejected m) g)
    = deadLinks g ++ [mkLink u FETCH_ERROR (Some m)].
Proof. repeat split; reflexivity. Qed.

(** C7, on the code. On the site [site_external_down], crawled to the end by
    one worker, the external link whose [fetch] is rejected is in [deadLinks]
    but has no entry in [checkedLinks]: the verbose summary lists the seed
    only; the run itself goes on and exits 1. *)
Theorem external_fetch_error_unrecorded :
  let args := ["https://site.test/"; "-v"; "--concurrent=1"] in
  let sched := [O; O; O; O; O] in
  (checkedLinks ∘ globals <$> @crawl site_external_down args sched)
    = Some [mkLink "https://site.test/" (Code 200) None] /\
  (deadLinks ∘ globals <$> @crawl site_external_down args sched)
    = Some [mkLink "https://other.test/x" FETCH_ERROR (Some "fetch failed")] /\
  @main site_external_down args sched =
    Some (mkExit 1
            [starting "https://site.test/"; log LF;
             log (LF +:+ "Summary of checked links:");
             log "- https://site.test/ (Status: 200)";
             error_line dead_links_found;
             error_line "- https://other.test/x (Status: FETCH_ERROR, Error: fetch failed)"]).
Proof. repeat split; vm_compute; reflexivity. Qed.

(** ** Redirects (lines 40-57 and 101-119) *)

(** Crawled to the end by one worker, the two external redirects are recorded
    with their status and nothing else happens: the one without [Location] is
    not dead, the target of the other one was never queued, and the process
    exits 0. *)
Lemma external_redirect_not_handled :
  let args := ["https://site.test/"; "--concurrent=1"] in
  let sched := [O; O; O; O; O; O; O] in
  (checkedLinks ∘ globals <$> @crawl site_external_redirect args sched)
    = Some [mkLink "https://site.test/" (Code 200) None;
            mkLink "https://other.test/gone" (Code 301) None;
            mkLink "https://other.test/moved" (Code 302) None] /\
  (deadLinks ∘ globals <$> @crawl site_external_redirect args sched) = Some [] /\
  (elements ∘ queuedLinks ∘ globals <$> @crawl site_external_redirect args sched)
    = Some ["https://other.test/gone"; "https://other.test/moved"; "https://site.test/"] /\
  (all_returned <$> @crawl site_external_redirect args sched) = Some true /\
  (code <$> @main site_external_redirect args sched) = Some 0.
Proof. repeat split; vm_compute; reflexivity. Qed.

(** C3, as the code has it. A response with status in [300,400) to the
    [fetch] of a [checkLinks] task (the seed, a same-origin link, a redirect
    target) is recorded and then: without a [Location] the address is pushed
    on [deadLinks] with the error "Redirect with no Location header"; with a
    [Location] that resolves to [target], a [checkLinks] task for [target] is
    queued unless [target] is in [queuedLinks] already.  The same response to
    the [fetch] of an external-link task is recorded and nothing more. *)
Theorem redirect_handling {platform : Platform}
    (u : string) (response : Response) (g : Globals) :
  300 <= response_status response < 400 ->
  let st := response_status response in
  let g1 := checkedLinks_push (mkLink u (Code st) None) (checked_incr g) in
  (truthy (header_location response) = None ->
     checkLinks_fetched u (Fulfilled response) g =
       (deadLinks_push (mkLink u (Code st) (Some "Redirect with no Location header")) g1,
        AwaitTimeout)) /\
  (forall location target,
     truthy (header_location response) = Some location ->
     URL_href location u = Ok target ->
     checkLinks_fetched u (Fulfilled response) g =
       (if decide (target ∈ queuedLinks g) then g1
        else totalLinks_incr (queuedLinks_add target (queue_push (CheckLinks target) g1)),
        AwaitTimeout)) /\
  external_fetched u (Fulfilled response) g = g1.
Proof.
  intros [Hlo Hhi] st g1.
  assert (H400 : (400 <=? st) = false) by (apply Z.leb_gt; exact Hhi).
  assert (H300 : (300 <=? st) && (st <? 400) = true).
  { apply andb_true_intro. split; [apply Z.leb_le | apply Z.ltb_lt]; assumption. }
  split; [|split].
  - intros Hloc. cbn [checkLinks_fetched]. unfold checkLinks_response.
    fold st. fold g1. rewrite H400, H300, Hloc. reflexivity.
  - intros location target Hloc Hres. cbn [checkLinks_fetched].
    unfold checkLinks_response. fold st. fold g1.
    rewrite H400, H300, Hloc. unfold follow_redirect. rewrite Hres.
    change (queuedLinks g1) with (queuedLinks g).
    destruct (decide (target ∈ queuedLinks g)); reflexivity.
  - cbn [external_fetched]. fold st. fold g1. rewrite H400. reflexivity.
Qed.

Lemma redirect_handling_witness :
  @checkLinks_fetched site_external_redirect "https://other.test/moved"
     (Fulfilled (plain 302 (Some "https://other.test/new"))) initial =
  (totalLinks_incr (queuedLinks_add "https://other.test/new"
     (queue_push (CheckLinks "https://other.test/new")
        (checkedLinks_push (mkLink "https://other.test/moved" (Code 302) None)
           (checked_incr initial)))),
   AwaitTimeout) /\
  external_fetched "https://other.test/moved"
     (Fulfilled (plain 302 (Some "https://other.test/new"))) initial =
  checkedLinks_push (mkLink "https://other.test/moved" (Code 302) None)
    (checked_incr initial).
Proof.
  destruct (@redirect_handling site_external_redirect "https://other.test/moved"
              (plain 302 (Some "https://other.test/new")) initial)
    as (_ & Hfollow & Hext); [cbn; lia|].
  split; [|exact Hext].
  rewrite (Hfollow "https://other.test/new" "https://other.test/new");
    reflexivity.
Defined.

(** ** Runs of the whole program *)

Section Runs.

Context {platform : Platform}.

Lemma start_workers_invariant (I : Sys -> Prop) :
  (forall g ws, I (mkSys g ws) ->
     I (mkSys (worker_loop g).1 (ws ++ [(worker_loop g).2]))) ->
  forall n s, I s -> I (start_workers n s).
Proof.
  intros Hadd n. induction n as [|n IH]; intros [g ws] Hs; [exact Hs|].
  cbn [start_workers globals workers].
  specialize (Hadd g ws Hs). destruct (worker_loop g) as [g' w].
  apply IH, Hadd.
Qed.

(** What [main] hands to the event loop, when it gets that far. *)
Lemma main_start_crawling (args : list string) (origin : string)
    (before : list Line) (s : Sys) :
  main_start args = Crawling origin before s ->
  exists u n, truthy (inputURL (parse_args args)) = Some u /\
              URL_origin u = Ok origin /\
              s = start_workers n (mkSys (seeded u) []).
Proof.
  unfold main_start.
  destruct (truthy (inputURL (parse_args args))) as [u|]; [|discriminate].
  destruct (URL_origin u) as [o|] eqn:Ho; [|discriminate].
  destruct (worker_count _) as [n|]; [|discriminate].
  intros [= <- _ <-]. exists u, n. auto.
Qed.

(** A property of the module state that the seeded state has and every resumed
    worker keeps, holds at every point of every crawl. *)
Lemma crawl_globals_invariant (I : Globals -> Prop) :
  (forall u, I (seeded u)) ->
  (forall origin w g, I g -> I (resume origin w g).1) ->
  forall args sched s, crawl args sched = Some s -> I (globals s).
Proof.
  intros Hseed Hres args sched s. unfold crawl.
  destruct (main_start args) as [|origin before s0] eqn:Hstart; [discriminate|].
  intros [= <-].
  apply main_start_crawling in Hstart as (u & n & _ & _ & ->).
  apply (run_invariant origin (fun s => I (globals s))).
  - intros s i Hs. unfold step. destruct (workers s !! i) as [w|]; [|exact Hs].
    specialize (Hres origin w (globals s) Hs).
    destruct (resume origin w (globals s)). exact Hres.
  - apply (start_workers_invariant (fun s => I (globals s))); [|apply Hseed].
    intros g ws Hg. apply (Hres "" AwaitTimeout g Hg).
Qed.

(** The loop over the links only touches the queue, [queuedLinks] and
    [totalLinks]. *)
Lemma enqueue_links_lists (origin : string) (links : list string) (g : Globals) :
  deadLinks (enqueue_links origin links g).1 = deadLinks g /\
  checkedLinks (enqueue_links origin links g).1 = checkedLinks g /\
  visited (enqueue_links origin links g).1 = visited g.
Proof.
  revert g. induction links as [|link rest IH]; intros g; [auto|].
  cbn [enqueue_links]. destruct (decide (link ∈ queuedLinks g)); [apply IH|].
  destruct (URL_origin link) as [o|m]; [|auto].
  destruct (IH (totalLinks_incr (queue_push
             (if String.eqb o origin then CheckLinks link else CheckExternal link)
             (queuedLinks_add link g)))) as (-> & -> & ->).
  auto.
Qed.

End Runs.

(** ** The dead-link list (lines 35-48, 109-117, 124-127) *)

Section DeadLinks.

Context {platform : Platform}.

Lemma sound_same_lists (g g' : Globals) :
  deadLinks g' = deadLinks g -> checkedLinks g' = checkedLinks g ->
  dead_links_sound g -> dead_links_sound g'.
Proof. unfold dead_links_sound. intros -> ->. auto. Qed.

Lemma sound_push_dead (d : LinkRecord) (g : Globals) :
  dead_entry d -> dead_links_sound g -> dead_links_sound (deadLinks_push d g).
Proof.
  intros Hd [H1 H2]. split; cbn.
  - intros x [Hx| ->%list_elem_of_singleton]%elem_of_app; auto.
  - intros r Hr Hdead. apply elem_of_app. auto.
Qed.

Lemma sound_push_both (r : LinkRecord) (g : Globals) :
  dead_entry r -> dead_links_sound g ->
  dead_links_sound (deadLinks_push r (checkedLinks_push r g)).
Proof.
  intros Hd [H1 H2]. split; cbn.
  - intros x [Hx| ->%list_elem_of_singleton]%elem_of_app; auto.
  - intros x [Hx| ->%list_elem_of_singleton]%elem_of_app Hdead;
      apply elem_of_app; [auto | right; apply list_elem_of_singleton; reflexivity].
Qed.

Lemma sound_push_checked (r : LinkRecord) (g : Globals) :
  ~ is_dead (status r) -> dead_links_sound g ->
  dead_links_sound (checkedLinks_push r g).
Proof.
  intros Hd [H1 H2]. split; cbn; [exact H1|].
  intros x [Hx| ->%list_elem_of_singleton]%elem_of_app Hdead; [auto | contradiction].
Qed.

Lemma sound_catch (u m : string) (g : Globals) :
  dead_links_sound g -> dead_links_sound (checkLinks_catch u m g).
Proof. apply sound_push_both. exact I. Qed.

Lemma sound_resume (origin : string) (w : Worker) (g : Globals) :
  dead_links_sound g -> dead_links_sound (resume origin w g).1.
Proof.
  intros Hg. destruct w as [u|u response|u| |]; cbn [resume fst].
  - (* fetch settles in checkLinks *)
    destruct (fetch u) as [response|m]; cbn [checkLinks_fetched];
      [|apply sound_catch, Hg].
    unfold checkLinks_response.
    set (st := response_status response).
    assert (Hg' : dead_links_sound (checked_incr g))
      by (revert Hg; apply sound_same_lists; reflexivity).
    destruct (Z.leb_spec 400 st) as [H400|H400]; cbn [fst].
    { apply sound_push_both; [left; exact H400 | exact Hg']. }
    assert (Hg1 : dead_links_sound
                    (checkedLinks_push (mkLink u (Code st) None) (checked_incr g)))
      by (apply sound_push_checked; [cbn; lia | exact Hg']).
    destruct ((300 <=? st) && (st <? 400)) eqn:H300; cbn [fst].
    + apply andb_prop in H300 as [Hlo%Z.leb_le Hhi%Z.ltb_lt].
      destruct (truthy (header_location response)) as [location|]; cbn [fst].
      * unfold follow_redirect. destruct (URL_href location u) as [target|m];
          [|apply sound_catch, Hg1].
        destruct (decide _); [exact Hg1|].
        revert Hg1. apply sound_same_lists; reflexivity.
      * apply sound_push_dead; [|exact Hg1]. right; auto.
    + destruct (negb _); exact Hg1.
  - (* the body is read *)
    unfold checkLinks_text.
    destruct (response_anchors response) as [anchors|m]; [|apply sound_catch, Hg].
    destruct (enqueue_links_lists origin (extract_links u anchors) g) as (Hd & Hc & _).
    destruct (enqueue_links origin (extract_links u anchors) g) as [g' [m|]];
      cbn [fst] in *.
    + apply sound_catch. revert Hg. apply sound_same_lists; assumption.
    + revert Hg. apply sound_same_lists; assumption.
  - (* fetch settles in the external-link task *)
    unfold external_fetched. destruct (fetch u) as [response|m].
    + set (st := response_status response).
      assert (Hg' : dead_links_sound (checked_incr g))
        by (revert Hg; apply sound_same_lists; reflexivity).
      destruct (Z.leb_spec 400 st) as [H400|H400].
      * apply sound_push_both; [left; exact H400 | exact Hg'].
      * apply sound_push_checked; [cbn; lia | exact Hg'].
    + apply sound_push_dead; [exact I | exact Hg].
  - (* the timer fires *)
    unfold worker_loop. destruct (queue g) as [|[u|u] rest]; cbn [fst task_call];
      [exact Hg | | revert Hg; apply sound_same_lists; reflexivity].
    unfold checkLinks_call. destruct (decide _); cbn [fst];
      revert Hg; apply sound_same_lists; reflexivity.
  - exact Hg.
Qed.

End DeadLinks.

(** After the seed's [fetch] settled, [deadLinks] holds an entry with status
    301, and this entry, which carries an error message, is not one of
    [checkedLinks]. *)
Lemma redirect_without_location_is_dead :
  let args := ["https://site.test/"; "--concurrent=1"] in
  (deadLinks ∘ globals <$> @crawl site_seed_redirect args [O])
    = Some [mkLink "https://site.test/" (Code 301)
              (Some "Redirect with no Location header")] /\
  (checkedLinks ∘ globals <$> @crawl site_seed_redirect args [O])
    = Some [mkLink "https://site.test/" (Code 301) None].
Proof. split; vm_compute; reflexivity. Qed.

(** C6, as the code has it. At every point of every run, each entry of
    [deadLinks] has a status of 400 or more, or the status [FETCH_ERROR], or is
    a redirect (status in [300,400)) recorded with the error "Redirect with no
    Location header"; and each entry of [checkedLinks] whose status is 400 or
    more or [FETCH_ERROR] is an entry of [deadLinks]. *)
Theorem dead_links_invariant {platform : Platform}
    (args : list string) (sched : list nat) (s : Sys) :
  crawl args sched = Some s ->
  (forall d, d ∈ deadLinks (globals s) ->
     match status d with
     | Code n =>
         400 <= n \/
         (300 <= n < 400 /\ error d = Some "Redirect with no Location header")
     | FETCH_ERROR => True
     end) /\
  (forall r, r ∈ checkedLinks (globals s) ->
     match status r with Code n => 400 <= n | FETCH_ERROR => True end ->
     r ∈ deadLinks (globals s)).
Proof.
  apply (crawl_globals_invariant dead_links_sound).
  - intros u. split; cbn; intros x Hx; apply elem_of_nil in Hx; contradiction.
  - intros origin w g. apply sound_resume.
Qed.

Lemma dead_links_invariant_witness :
  400 <= 301 \/
  (300 <= 301 < 400 /\
   error (mkLink "https://site.test/" (Code 301)
            (Some "Redirect with no Location header"))
     = Some "Redirect with no Location header").
Proof.
  refine (proj1 (@dead_links_invariant site_seed_redirect
                   ["https://site.test/"; "--concurrent=1"] [O]
                   (@run site_seed_redirect "https://site.test" [O]
                      (start_workers 1 (mkSys (seeded "https://site.test/") [])))
                   eq_refl)
                (mkLink "https://site.test/" (Code 301)
                   (Some "Redirect with no Location header")) _).
  vm_compute. apply list_elem_of_here.
Defined.

(** ** Deduplication (lines 24-26, 51-55, 91-98) *)

Section Dedup.
Context {platform : Platform}.

Lemma occ_app u l k : occ u (l ++ k) = (occ u l + occ u k)%nat.
Proof. induction l as [|x l IH]; cbn; [reflexivity|]. rewrite IH. lia. Qed.

Lemma coded_snoc l r :
  coded (l ++ [r]) = coded l ++ match status r with Code _ => [url r] | FETCH_ERROR => [] end.
Proof. unfold coded. rewrite omap_app. cbn. destruct (status r); reflexivity. Qed.

Lemma failed_snoc l r :
  failed (l ++ [r]) = failed l ++ match status r with Code _ => [] | FETCH_ERROR => [url r] end.
Proof. unfold failed. rewrite omap_app. cbn. destruct (status r); reflexivity. Qed.


(** Normalize the counts after a mutation of the module state. *)
Ltac occ_norm :=
  unfold url_inv, recorded in *;
  cbn [queue deadLinks checkedLinks visited queuedLinks totalLinks checked
       deadLinks_push checkedLinks_push visited_add queuedLinks_add checked_incr
       totalLinks_incr queue_push queue_set isProcessing_set checkLinks_catch
       in_fetch in_external in_text fst snd] in *;
  rewrite ?fmap_app, ?coded_snoc, ?failed_snoc, ?occ_app in *;
  cbn [fmap list_fmap url status error task_url occ] in *;
  rewrite ?elem_of_union, ?elem_of_singleton in *.

(** Decide the equalities between URLs, feed the hypotheses their premises and
    close the arithmetic. *)
Ltac occ_solve :=
  occ_norm; repeat case_decide; subst;
  repeat match goal with
         | H : _ /\ _ |- _ => destruct H
         end;
  repeat split; intros;
  repeat match goal with
         | H : _ = _ \/ _ |- _ => destruct H; subst
         end;
  repeat match goal with
         | H : ?P -> _, H' : ?P |- _ => specialize (H H')
         | H : ?x ∉ ?Q -> _ |- _ =>
             let N := fresh in
             assert (N : x ∉ Q) by (clear H; intuition congruence); specialize (H N)
         | H : ?x ∈ ?Q -> _ |- _ =>
             let N := fresh in
             assert (N : x ∈ Q) by (clear H; intuition congruence); specialize (H N)
         end;
  repeat match goal with
         | H : _ \/ throws _ |- _ => destruct H
         end;
  try lia; try tauto;
  try (left; lia); try (right; assumption); try (exfalso; intuition congruence).

(** The loop over the links keeps the invariant of every URL. *)
Lemma enqueue_links_url_inv origin links v nf ne nt g :
  url_inv v g nf ne nt -> url_inv v (enqueue_links origin links g).1 nf ne nt.
Proof.
  revert g. induction links as [|link rest IH]; intros g Hg; [exact Hg|].
  cbn [enqueue_links]. destruct (decide (link ∈ queuedLinks g)) as [Hin|Hin]; [auto|].
  destruct (URL_origin link) as [o|m] eqn:Ho.
  - apply IH. clear IH. destruct (String.eqb o origin); occ_solve.
  - cbn [fst]. clear IH. assert (throws link) by (exists m; exact Ho). occ_solve.
Qed.


(** Resuming a worker keeps the invariant of every URL, whatever the other
    workers' shares [kf], [ke] and [kt] are. *)
Lemma resume_url_inv origin w g v kf ke kt :
  url_inv v g (occ v (in_fetch w) + kf) (occ v (in_external w) + ke)
              (occ v (in_text w) + kt) ->
  url_inv v (resume origin w g).1
    (occ v (in_fetch (resume origin w g).2) + kf)
    (occ v (in_external (resume origin w g).2) + ke)
    (occ v (in_text (resume origin w g).2) + kt).
Proof.
  intros Hg. destruct w as [x|x response|x| |]; cbn [resume].
  - destruct (fetch x) as [response|m]; cbn [checkLinks_fetched]; [|occ_solve].
    unfold checkLinks_response.
    destruct (400 <=? response_status response); [occ_solve|].
    destruct ((300 <=? response_status response) && (response_status response <? 400)).
    + destruct (truthy (header_location response)) as [location|]; [|occ_solve].
      unfold follow_redirect. destruct (URL_href location x) as [target|m]; [|occ_solve].
      destruct (decide _) as [Hin|Hin]; occ_solve.
    + destruct (negb _); occ_solve.
  - unfold checkLinks_text.
    destruct (response_anchors response) as [anchors|m]; [|occ_solve].
    pose proof (enqueue_links_url_inv origin (extract_links x anchors) v _ _ _ g Hg) as H.
    destruct (enqueue_links origin (extract_links x anchors) g) as [g' [m|]];
      cbn [fst snd] in *; occ_solve.
  - unfold external_fetched. destruct (fetch x) as [response|m]; [|occ_solve].
    destruct (400 <=? response_status response); occ_solve.
  - unfold worker_loop. destruct (queue g) as [|[x|x] rest] eqn:Hq; cbn [task_call].
    + occ_solve.
    + unfold checkLinks_call. destruct (decide _) as [Hin|Hin];
        occ_norm; rewrite ?Hq in *; occ_solve.
    + occ_norm; rewrite ?Hq in *; occ_solve.
  - exact Hg.
Qed.


(** Replacing one worker changes the count of a URL among the workers by that
    worker's share. *)
Lemma occ_bind_insert (f : Worker -> list string) v ws i w :
  ws !! i = Some w ->
  exists k, occ v (ws ≫= f) = (occ v (f w) + k)%nat /\
            forall w', occ v (<[i := w']> ws ≫= f) = (occ v (f w') + k)%nat.
Proof.
  revert i. induction ws as [|w0 ws IH]; intros i Hi; [discriminate|].
  destruct i as [|i].
  - injection Hi as ->. exists (occ v (ws ≫= f)). split.
    + rewrite bind_cons, occ_app. reflexivity.
    + intros w'. cbn [insert list_insert]. rewrite bind_cons, occ_app. reflexivity.
  - destruct (IH i Hi) as (k & Hk & Hk').
    exists (occ v (f w0) + k)%nat. split.
    + rewrite bind_cons, occ_app, Hk. lia.
    + intros w'. cbn [insert list_insert]. rewrite bind_cons, occ_app, Hk'. lia.
Qed.

Lemma occ_bind_snoc (f : Worker -> list string) v ws w :
  occ v ((ws ++ [w]) ≫= f) = (occ v (f w) + occ v (ws ≫= f))%nat.
Proof.
  rewrite bind_app, occ_app, bind_cons, occ_app. cbn. lia.
Qed.

Lemma sys_inv_step origin s i : sys_inv s -> sys_inv (step origin s i).
Proof.
  intros Hs v. unfold step.
  destruct (workers s !! i) as [w|] eqn:Hw; [|apply Hs].
  destruct (occ_bind_insert in_fetch v _ _ _ Hw) as (kf & Hf & Hf').
  destruct (occ_bind_insert in_external v _ _ _ Hw) as (ke & He & He').
  destruct (occ_bind_insert in_text v _ _ _ Hw) as (kt & Ht & Ht').
  specialize (Hs v). rewrite Hf, He, Ht in Hs.
  apply (resume_url_inv origin) in Hs.
  destruct (resume origin w (globals s)) as [g' w']. cbn [globals workers fst snd] in *.
  rewrite Hf', He', Ht'. exact Hs.
Qed.

Lemma sys_inv_start u n : sys_inv (start_workers n (mkSys (seeded u) [])).
Proof.
  apply (start_workers_invariant sys_inv).
  - intros g ws Hs v. specialize (Hs v). cbn [globals workers] in *.
    rewrite !occ_bind_snoc.
    pose proof (resume_url_inv "" AwaitTimeout g v
                  (occ v (ws ≫= in_fetch)) (occ v (ws ≫= in_external))
                  (occ v (ws ≫= in_text))) as H.
    cbn [resume in_fetch in_external in_text occ] in H.
    apply H. exact Hs.
  - intros v. unfold url_inv, recorded. cbn.
    rewrite !elem_of_union, !elem_of_singleton, !elem_of_empty.
    case_decide; subst; repeat split; intros; try lia; try (left; lia);
      exfalso; intuition congruence.
Qed.

(** A worker returns only from the head of its loop, on an empty queue. *)
Lemma resume_returned origin w g :
  (resume origin w g).2 = Returned ->
  (resume origin w g).1 = g /\ (w = Returned \/ queue g = []).
Proof.
  destruct w as [x|x response|x| |]; cbn [resume snd fst]; try discriminate.
  - destruct (fetch x) as [response|m]; cbn [checkLinks_fetched snd]; [|discriminate].
    unfold checkLinks_response.
    repeat (match goal with |- context [if ?b then _ else _] => destruct b end
            || match goal with |- context [match ?o with Some _ => _ | None => _ end] =>
                 destruct o end);
      discriminate.
  - unfold worker_loop. destruct (queue g) as [|[x|x] rest]; cbn [task_call snd fst].
    + auto.
    + unfold checkLinks_call. destruct (decide _); discriminate.
    + discriminate.
  - auto.
Qed.

Lemma busy_step origin s i : busy s -> busy (step origin s i).
Proof.
  intros Hs. unfold step.
  destruct (workers s !! i) as [w|] eqn:Hw; [|exact Hs].
  pose proof (resume_returned origin w (globals s)) as Hret.
  destruct (resume origin w (globals s)) as [g' w']. cbn [fst snd] in Hret.
  intros _ Hq. cbn [globals workers] in *.
  assert (Hne : workers s ≠ []) by (intros E; rewrite E in Hw; discriminate).
  assert (Hdec : w' = Returned \/ w' ≠ Returned)
    by (destruct w'; (left; reflexivity) || (right; discriminate)).
  destruct Hdec as [->|Hw'].
  - destruct (Hret eq_refl) as [-> [-> | Hempty]]; [|contradiction].
    rewrite list_insert_id by exact Hw. apply Hs; assumption.
  - exists w'. split; [|exact Hw'].
    apply list_elem_of_lookup. exists i. apply list_lookup_insert_eq.
    apply lookup_lt_Some in Hw. exact Hw.
Qed.

Lemma busy_start u n : busy (start_workers n (mkSys (seeded u) [])).
Proof.
  destruct n as [|n]; [intros H; contradiction|].
  rewrite start_workers_seeded. intros _ _. exists (AwaitFetch u).
  split; [apply list_elem_of_here | discriminate].
Qed.

(** A property that holds once the workers are started and that every step
    keeps, holds at every point of every crawl. *)
Lemma crawl_invariant (I : Sys -> Prop) :
  (forall u n, I (start_workers n (mkSys (seeded u) []))) ->
  (forall origin s i, I s -> I (step origin s i)) ->
  forall args sched s, crawl args sched = Some s -> I s.
Proof.
  intros Hstart Hstep args sched s. unfold crawl.
  destruct (main_start args) as [|origin before s0] eqn:Hs0; [discriminate|].
  intros [= <-].
  apply main_start_crawling in Hs0 as (u & n & _ & _ & ->).
  apply run_invariant; [apply Hstep | apply Hstart].
Qed.


(** X3. [await Promise.all(workers)] is over only when the queue is empty: the
    last worker to return found it so, and nothing is in flight then. *)
Lemma pool_done_queue_empty (args : list string) (sched : list nat) (s : Sys) :
  crawl args sched = Some s -> all_returned s = true -> workers s ≠ [] ->
  queue (globals s) = [].
Proof.
  intros Hs Hall Hne.
  pose proof (crawl_invariant busy busy_start busy_step _ _ _ Hs) as Hbusy.
  destruct (queue (globals s)) as [|t q] eqn:Hq; [reflexivity|].
  destruct (Hbusy Hne) as (w & Hw & Hnr); [rewrite Hq; discriminate|].
  apply (proj1 (all_returned_spec s) Hall) in Hw. contradiction.
Qed.

(** The same for the entries of [deadLinks]. *)














End Dedup.

Lemma pool_done_queue_empty_witness :
  exists s,
    @crawl site_external_down ["https://site.test/"; "--concurrent=2"] [O; O; O; O; O]
      = Some s /\
    queue (globals s) = [].
Proof.
  eexists. split; [reflexivity|].
  apply (@pool_done_queue_empty site_external_down
           ["https://site.test/"; "--concurrent=2"] [O; O; O; O; O]);
    [reflexivity | vm_compute; reflexivity | vm_compute; discriminate].
Defined.




(** ** Progress of the first worker *)

Section Progress.
Context {platform : Platform}.

Lemma drive_add origin a b p : drive origin (a + b) p = drive origin b (drive origin a p).
Proof. revert p. induction a as [|a IH]; intros p; [reflexivity|]. cbn. apply IH. Qed.

Lemma run_first_worker origin k g w rest :
  run origin (replicate k O) (mkSys g (w :: rest)) =
  mkSys (drive origin k (g, w)).1 ((drive origin k (g, w)).2 :: rest).
Proof.
  revert g w. induction k as [|k IH]; intros g w; [reflexivity|].
  cbn [replicate]. rewrite run_cons. unfold step. cbn [workers globals lookup list_lookup].
  cbn [drive fst snd]. destruct (resume origin w g) as [g' w']. cbn [insert list_insert].
  apply IH.
Qed.

Lemma enqueue_links_queue origin links g :
  exists new, queue (enqueue_links origin links g).1 = queue g ++ new.
Proof.
  revert g. induction links as [|link rest IH]; intros g.
  - exists []. cbn. rewrite app_nil_r. reflexivity.
  - cbn [enqueue_links]. destruct (decide _); [apply IH|].
    destruct (URL_origin link) as [o|m].
    + destruct (IH (totalLinks_incr (queue_push
               (if String.eqb o origin then CheckLinks link else CheckExternal link)
               (queuedLinks_add link g)))) as [new ->].
      cbn. rewrite <- app_assoc. eauto.
    + exists []. cbn. rewrite app_nil_r. reflexivity.
Qed.

(** What one resumption of a worker that is not at the head of its loop does:
    the queue and [checkedLinks] only grow, a fetch for [checkLinks] leaves a
    record for its URL, and the worker is back at the head of its loop unless
    it goes on to read the body. *)
Lemma resume_effect origin w g :
  w <> AwaitTimeout -> w <> Returned ->
  exists new cs,
    queue (resume origin w g).1 = queue g ++ new /\
    checkedLinks (resume origin w g).1 = checkedLinks g ++ cs /\
    (forall x, w = AwaitFetch x -> (0 < occ x (url <$> cs))%nat) /\
    ((resume origin w g).2 = AwaitTimeout \/
     exists x r, w = AwaitFetch x /\ (resume origin w g).2 = AwaitText x r).
Proof.
  intros Hw1 Hw2. destruct w as [x|x response|x| |]; try contradiction; cbn [resume].
  - destruct (fetch x) as [response|m]; cbn [checkLinks_fetched].
    + unfold checkLinks_response.
      destruct (400 <=? response_status response).
      { exists [], [mkLink x (Code (response_status response)) None]. cbn.
        rewrite app_nil_r. repeat split; auto.
        intros ? [= <-]. rewrite decide_True by reflexivity. lia. }
      destruct ((300 <=? response_status response) && (response_status response <? 400)).
      * destruct (truthy (header_location response)) as [location|].
        -- unfold follow_redirect. destruct (URL_href location x) as [target|m].
           ++ destruct (decide _).
              ** exists [], [mkLink x (Code (response_status response)) None]. cbn.
                 rewrite app_nil_r. repeat split; auto.
                 intros ? [= <-]. rewrite decide_True by reflexivity. lia.
              ** exists [CheckLinks target], [mkLink x (Code (response_status response)) None].
                 cbn. repeat split; auto.
                 intros ? [= <-]. rewrite decide_True by reflexivity. lia.
           ++ exists [], [mkLink x (Code (response_status response)) None;
                          mkLink x FETCH_ERROR (Some m)]. cbn.
              rewrite app_nil_r, <- app_assoc. repeat split; auto.
              intros ? [= <-]. rewrite decide_True by reflexivity. lia.
        -- exists [], [mkLink x (Code (response_status response)) None]. cbn.
           rewrite app_nil_r. repeat split; auto.
           intros ? [= <-]. rewrite decide_True by reflexivity. lia.
      * exists [], [mkLink x (Code (response_status response)) None].
        destruct (negb _); cbn; rewrite app_nil_r; (split; [reflexivity|]);
          (split; [reflexivity|]);
          (split; [intros ? [= <-]; rewrite decide_True by reflexivity; lia|]);
          eauto.
    + exists [], [mkLink x FETCH_ERROR (Some m)]. cbn.
      rewrite app_nil_r. repeat split; auto.
      intros ? [= <-]. rewrite decide_True by reflexivity. lia.
  - unfold checkLinks_text. destruct (response_anchors response) as [anchors|m].
    + destruct (enqueue_links_queue origin (extract_links x anchors) g) as [new Hq].
      destruct (enqueue_links_lists origin (extract_links x anchors) g) as (_ & Hc & _).
      destruct (enqueue_links origin (extract_links x anchors) g) as [g' [m|]];
        cbn [fst snd] in *.
      * exists new, [mkLink x FETCH_ERROR (Some m)]. cbn. rewrite Hq, Hc.
        repeat split; auto. discriminate.
      * exists new, []. rewrite Hq, Hc, app_nil_r. repeat split; auto. discriminate.
    + exists [], [mkLink x FETCH_ERROR (Some m)]. cbn. rewrite app_nil_r.
      repeat split; auto. discriminate.
  - unfold external_fetched. destruct (fetch x) as [response|m].
    + destruct (400 <=? response_status response);
        exists [], [mkLink x (Code (response_status response)) None]; cbn;
        rewrite app_nil_r; repeat split; auto; discriminate.
    + exists [], []. cbn. rewrite !app_nil_r. repeat split; auto. discriminate.
Qed.

(** A turn takes the task at the head of the queue or appends tasks to the
    queue, never both: the tasks the queue gains in a turn are those
    pushed. *)
Lemma turn_takes_or_appends origin s i :
  (exists new, queue (globals (step origin s i)) = queue (globals s) ++ new) \/
  (exists task, queue (globals s) = task :: queue (globals (step origin s i))).
Proof.
  unfold step. destruct (workers s !! i) as [w|];
    [|left; exists []; rewrite app_nil_r; reflexivity].
  destruct w as [x|x response|x| |].
  4: { cbn [resume]. unfold worker_loop.
       destruct (queue (globals s)) as [|[x|x] rest] eqn:Hq; cbn [task_call globals].
       - left. exists []. cbn. rewrite Hq. reflexivity.
       - right. exists (CheckLinks x). unfold checkLinks_call.
         destruct (decide _); reflexivity.
       - right. exists (CheckExternal x). reflexivity. }
  4: { left. exists []. cbn. rewrite app_nil_r. reflexivity. }
  all: match goal with
       | |- context [resume ?o ?w ?g] =>
           destruct (resume_effect o w g) as (new & cs & Hq & _);
           [discriminate | discriminate |];
           destruct (resume o w g) as [g' w']; left; exists new; exact Hq
       end.
Qed.

(** A worker inside a task is back at the head of its loop after one or two
    resumptions. *)
Lemma settle origin w g :
  w <> AwaitTimeout -> w <> Returned ->
  exists j new cs,
    (drive origin j (g, w)).2 = AwaitTimeout /\
    queue (drive origin j (g, w)).1 = queue g ++ new /\
    checkedLinks (drive origin j (g, w)).1 = checkedLinks g ++ cs /\
    (forall x, w = AwaitFetch x -> (0 < occ x (url <$> cs))%nat).
Proof.
  intros Hw1 Hw2.
  destruct (resume_effect origin w g Hw1 Hw2) as (new & cs & Hq & Hc & Hx & Hnext).
  destruct Hnext as [Hnext | (x & r & -> & Hnext)].
  - exists 1%nat, new, cs. cbn [drive fst snd]. auto.
  - destruct (resume_effect origin (AwaitText x r) (resume origin (AwaitFetch x) g).1)
      as (new' & cs' & Hq' & Hc' & _ & Hnext'); [discriminate | discriminate |].
    destruct Hnext' as [Hnext' | (? & ? & [=] & _)].
    exists 2%nat, (new ++ new'), (cs ++ cs'). cbn [drive fst snd].
    rewrite Hnext. cbn [fst snd] in *.
    rewrite Hq', Hc', Hq, Hc, <- !app_assoc.
    repeat split; auto.
    intros y Hy. specialize (Hx y Hy). rewrite fmap_app, occ_app. lia.
Qed.

Lemma drive_inv origin kf ke kt k g w :
  worker_inv g w kf ke kt ->
  worker_inv (drive origin k (g, w)).1 (drive origin k (g, w)).2 kf ke kt.
Proof.
  revert g w. induction k as [|k IH]; intros g w Hg; [exact Hg|].
  cbn [drive fst snd].
  pose proof (fun v => resume_url_inv origin w g v _ _ _ (Hg v)) as H.
  destruct (resume origin w g) as [g' w']. apply IH. exact H.
Qed.

(** A queued [checkLinks] task was never started: its URL is not in
    [visited]. *)
Lemma queued_not_visited g w kf ke kt link q2 :
  worker_inv g w kf ke kt -> queue g = CheckLinks link :: q2 -> link ∉ visited g.
Proof.
  intros Hg Hq Hin. destruct (Hg link) as (HA & HB & _ & _ & HV & _).
  specialize (HV Hin). rewrite Hq in HA, HB. cbn in HA, HB.
  rewrite decide_True in HA, HB by reflexivity. lia.
Qed.

(** The first worker alone empties the queue in order: a queued [checkLinks]
    task is reached, its URL fetched and a record for it pushed on
    [checkedLinks]. *)
Lemma drain origin link kf ke kt :
  forall p g q1 q2,
    length q1 = p ->
    worker_inv g AwaitTimeout kf ke kt ->
    queue g = q1 ++ CheckLinks link :: q2 ->
    exists k cs,
      checkedLinks (drive origin k (g, AwaitTimeout)).1 = checkedLinks g ++ cs /\
      (0 < occ link (url <$> cs))%nat.
Proof.
  induction p as [|p IH]; intros g q1 q2 Hlen Hg Hq.
  - destruct q1; [|discriminate]. cbn [app] in Hq.
    pose proof (queued_not_visited _ _ _ _ _ _ _ Hg Hq) as Hnv.
    destruct (settle origin (AwaitFetch link) (visited_add link (queue_set q2 g)))
      as (j & new & cs & _ & _ & Hc & Hx); [discriminate | discriminate |].
    exists (S j), cs. cbn [drive fst snd resume]. unfold worker_loop. rewrite Hq.
    cbn [task_call]. unfold checkLinks_call.
    rewrite decide_False by exact Hnv. rewrite Hc. split; [reflexivity | auto].
  - destruct q1 as [|t q1]; [discriminate|]. injection Hlen as Hlen.
    cbn [app] in Hq.
    pose proof (drive_inv origin kf ke kt 1 g AwaitTimeout Hg) as Hg1.
    cbn [drive fst snd resume] in Hg1. unfold worker_loop in Hg1. rewrite Hq in Hg1.
    set (g0 := queue_set (q1 ++ CheckLinks link :: q2) g) in *.
    assert (Hstep : forall k, drive origin (S k) (g, AwaitTimeout)
                              = drive origin k (task_call t g0)).
    { intros k. cbn [drive fst snd resume]. unfold worker_loop. rewrite Hq. reflexivity. }
    assert (Hcall : queue (task_call t g0).1 = q1 ++ CheckLinks link :: q2 /\
                    checkedLinks (task_call t g0).1 = checkedLinks g /\
                    (task_call t g0).2 <> Returned).
    { destruct t as [x|x]; cbn [task_call]; [|repeat split; discriminate].
      unfold checkLinks_call. destruct (decide _); repeat split; discriminate. }
    destruct Hcall as (Hq1 & Hc1 & Hr1).
    destruct (task_call t g0) as [g1 w1] eqn:Ecall. cbn [fst snd] in *.
    assert (Hw1 : w1 = AwaitTimeout \/ w1 <> AwaitTimeout)
      by (destruct w1; (left; reflexivity) || (right; discriminate)).
    destruct Hw1 as [-> | Hw1].
    + destruct (IH g1 q1 q2 Hlen Hg1 Hq1) as (k & cs & Hc & Hpos).
      exists (S k), cs. rewrite Hstep, Hc, Hc1. auto.
    + destruct (settle origin w1 g1 Hw1 Hr1) as (j & new & cs1 & Hw2 & Hq2 & Hc2 & _).
      pose proof (drive_inv origin kf ke kt j g1 w1 Hg1) as Hg2.
      destruct (drive origin j (g1, w1)) as [g2 w2] eqn:Edrive. cbn [fst snd] in *.
      subst w2. rewrite Hq1, <- app_assoc in Hq2. cbn [app] in Hq2.
      destruct (IH g2 q1 (q2 ++ new) Hlen Hg2 Hq2) as (k & cs & Hc & Hpos).
      exists (S (j + k)), (cs1 ++ cs).
      rewrite Hstep, drive_add, Edrive, Hc, Hc2, Hc1, <- app_assoc.
      split; [reflexivity|]. rewrite fmap_app, occ_app. lia.
Qed.

Lemma enqueue_links_no_throw origin links g :
  (forall l, l ∈ links -> ~ throws l) -> (enqueue_links origin links g).2 = None.
Proof.
  revert g. induction links as [|link rest IH]; intros g Hok; [reflexivity|].
  assert (Hrest : forall l, l ∈ rest -> ~ throws l)
    by (intros l Hl; apply Hok, list_elem_of_further, Hl).
  cbn [enqueue_links]. destruct (decide _); [apply IH, Hrest|].
  destruct (URL_origin link) as [o|m] eqn:Ho; [apply IH, Hrest|].
  exfalso. apply (Hok link); [apply list_elem_of_here | exists m; exact Ho].
Qed.

Lemma enqueue_links_queuedLinks origin links g :
  queuedLinks g ⊆ queuedLinks (enqueue_links origin links g).1.
Proof.
  revert g. induction links as [|l rest IH]; intros g; [reflexivity|].
  cbn [enqueue_links]. destruct (decide _); [apply IH|].
  destruct (URL_origin l).
  - etransitivity; [|apply IH]. cbn. apply union_subseteq_r.
  - cbn. apply union_subseteq_r.
Qed.

Lemma enqueue_links_enqueues origin links link g :
  link ∈ links -> (forall l, l ∈ links -> ~ throws l) ->
  URL_origin link = Ok origin -> link ∉ queuedLinks g ->
  CheckLinks link ∈ queue (enqueue_links origin links g).1 /\
  link ∈ queuedLinks (enqueue_links origin links g).1.
Proof.
  intros Hin Hok Ho. revert g Hin. induction links as [|l rest IH]; intros g Hin Hnq.
  - apply elem_of_nil in Hin. contradiction.
  - assert (Hrest : forall l, l ∈ rest -> ~ throws l)
      by (intros l' Hl; apply Hok, list_elem_of_further, Hl).
    cbn [enqueue_links]. destruct (decide (l ∈ queuedLinks g)) as [Hl|Hl].
    + apply IH; [exact Hrest| |exact Hnq].
      apply elem_of_cons in Hin as [->|Hin]; [contradiction | exact Hin].
    + destruct (URL_origin l) as [o|m] eqn:Hlo;
        [|exfalso; apply (Hok l); [apply list_elem_of_here | exists m; exact Hlo]].
      destruct (decide (l = link)) as [->|Hne].
      * rewrite Ho in Hlo. injection Hlo as <-. rewrite String.eqb_refl.
        set (g1 := totalLinks_incr (queue_push (CheckLinks link) (queuedLinks_add link g))).
        destruct (enqueue_links_queue origin rest g1) as [new Hq].
        rewrite Hq. split.
        -- apply elem_of_app. left. cbn. apply elem_of_app. right. apply list_elem_of_here.
        -- apply (enqueue_links_queuedLinks origin rest g1). cbn.
           apply elem_of_union. left. apply elem_of_singleton. reflexivity.
      * apply IH; [exact Hrest| |].
        -- apply elem_of_cons in Hin as [->|Hin]; [contradiction | exact Hin].
        -- cbn. rewrite elem_of_union, elem_of_singleton.
           intros [E|E]; [congruence | contradiction].
Qed.

Lemma append_ne (a b : string) : b <> EmptyString -> a +:+ b <> a.
Proof.
  intros Hb E. apply (f_equal String.length) in E. rewrite length_append in E.
  destruct b; [contradiction|]. cbn in E. lia.
Qed.

End Progress.

(** C9. The seed is queued and fetched exactly as given on the command line.
    When the seed is [link] followed by a slash (or by a fragment), its page
    is HTML, and an anchor of the page normalizes to [link], then [link] is
    another address than the seed: once the page is read a [checkLinks] task
    for [link] is queued, and the first worker, resumed often enough, reaches
    it, fetches [link] and records it, so that [checkedLinks] holds the
    seed's record and a record for [link]. *)
Theorem seed_not_normalized {platform : Platform}
    (args : list string) (u origin link : string) (n : nat)
    (response : Response) (anchors : list (option string)) (attr : option string) :
  truthy (inputURL (parse_args args)) = Some u ->
  URL_origin u = Ok origin ->
  worker_count (concurrentRequests (parse_args args)) = Ok (S n) ->
  fetch u = Fulfilled response ->
  response_status response < 300 ->
  JS.includes "text/html" (default "" (header_content_type response)) = true ->
  response_anchors response = Ok anchors ->
  attr ∈ anchors ->
  normalize attr u = Some link ->
  (u = link +:+ "/" \/ exists fragment, u = link +:+ "#" +:+ fragment) ->
  URL_origin link = Ok origin ->
  (forall l, l ∈ extract_links u anchors -> ~ throws l) ->
  crawl args [] =
    Some (mkSys (visited_add u (queue_set [] (seeded u)))
                (AwaitFetch u :: replicate n Returned)) /\
  (exists s, crawl args [O; O] = Some s /\
             link <> u /\
             CheckLinks link ∈ queue (globals s) /\
             link ∈ queuedLinks (globals s)) /\
  (exists k s, crawl args (replicate k O) = Some s /\
               mkLink u (Code (response_status response)) None
                 ∈ checkedLinks (globals s) /\
               exists r, r ∈ checkedLinks (globals s) /\ url r = link).
Proof.
  intros Hu Ho Hn Hfetch Hst Hhtml Hanchors Hattr Hnorm Hseed Hlo Hok.
  assert (Hne : link <> u).
  { intros E. clear -E Hseed. subst u.
    destruct Hseed as [Hs | [f Hs]]; symmetry in Hs; revert Hs;
      apply append_ne; discriminate. }
  assert (Hstart : main_start args =
            Crawling origin [starting u]
              (mkSys (visited_add u (queue_set [] (seeded u)))
                     (AwaitFetch u :: replicate n Returned))).
  { unfold main_start. rewrite Hu, Ho, Hn, start_workers_seeded. reflexivity. }
  set (g0 := visited_add u (queue_set [] (seeded u))) in *.
  set (g1 := checkedLinks_push (mkLink u (Code (response_status response)) None)
               (checked_incr g0)).
  set (g2 := (enqueue_links origin (extract_links u anchors) g1).1).
  assert (Hdrive : drive origin 2 (g0, AwaitFetch u) = (g2, AwaitTimeout)).
  { cbn [drive fst snd resume]. rewrite Hfetch. cbn [checkLinks_fetched].
    unfold checkLinks_response.
    rewrite (proj2 (Z.leb_gt 400 _)) by lia.
    replace (response_status response <? 400) with true by (symmetry; apply Z.ltb_lt; lia).
    destruct (300 <=? response_status response) eqn:H300;
      [apply Z.leb_le in H300; lia|].
    cbn [andb]. rewrite Hhtml. cbn [negb fst snd resume].
    unfold checkLinks_text. rewrite Hanchors.
    pose proof (enqueue_links_no_throw origin (extract_links u anchors) g1 Hok) as Hnone.
    fold g1. unfold g2.
    destruct (enqueue_links origin (extract_links u anchors) g1) as [g' m].
    cbn [snd] in Hnone. subst m. reflexivity. }
  assert (Hlink : link ∈ extract_links u anchors).
  { unfold extract_links. apply list_elem_of_omap. exists attr. auto. }
  destruct (enqueue_links_enqueues origin _ link g1 Hlink Hok Hlo) as [Hq2 Hin2].
  { cbn. rewrite !elem_of_union, elem_of_singleton, elem_of_empty. tauto. }
  fold g2 in Hq2, Hin2.
  assert (Hrun : forall k, crawl args (replicate k O) =
            Some (mkSys (drive origin k (g0, AwaitFetch u)).1
                        ((drive origin k (g0, AwaitFetch u)).2 :: replicate n Returned))).
  { intros k. unfold crawl. rewrite Hstart, run_first_worker. reflexivity. }
  split; [apply (Hrun O)|]. split.
  - eexists. split; [apply (Hrun 2%nat)|]. rewrite Hdrive. cbn [globals fst]. auto.
  - pose proof (crawl_invariant sys_inv sys_inv_start sys_inv_step _ _ _ (Hrun 2%nat))
      as Hinv.
    rewrite Hdrive in Hinv. cbn [fst snd] in Hinv.
    assert (Hw : worker_inv g2 AwaitTimeout
                   (fun v => occ v (replicate n Returned ≫= in_fetch))
                   (fun v => occ v (replicate n Returned ≫= in_external))
                   (fun v => occ v (replicate n Returned ≫= in_text))).
    { intros v. specialize (Hinv v). cbn [globals workers] in Hinv.
      rewrite !bind_cons, !occ_app in Hinv. exact Hinv. }
    apply list_elem_of_split in Hq2 as (q1 & q2 & Hq2).
    destruct (drain origin link _ _ _ (length q1) g2 q1 q2 eq_refl Hw Hq2)
      as (k & cs & Hc & Hpos).
    exists (2 + k)%nat. eexists. split; [apply Hrun|].
    rewrite drive_add, Hdrive. cbn [globals]. rewrite Hc.
    assert (Hc2 : checkedLinks g2 = [mkLink u (Code (response_status response)) None]).
    { unfold g2. destruct (enqueue_links_lists origin (extract_links u anchors) g1)
        as (_ & -> & _). reflexivity. }
    rewrite Hc2. split; [apply elem_of_app; left; apply list_elem_of_here|].
    assert (Hex : exists r, r ∈ cs /\ url r = link).
    { clear -Hpos. induction cs as [|r cs IH]; [cbn in Hpos; lia|].
      cbn in Hpos. destruct (decide (url r = link)) as [E|E].
      - exists r. split; [apply list_elem_of_here | exact E].
      - destruct IH as (r' & Hr' & E'); [lia|].
        exists r'. split; [apply list_elem_of_further, Hr' | exact E']. }
    destruct Hex as (r & Hr & E). exists r. split; [|exact E].
    apply elem_of_app. right. exact Hr.
Qed.

Lemma seed_not_normalized_witness :
  exists k s,
    @crawl site_root_link ["https://site.test/"] (replicate k O) = Some s /\
    mkLink "https://site.test/" (Code 200) None ∈ checkedLinks (globals s) /\
    exists r, r ∈ checkedLinks (globals s) /\ url r = "https://site.test".
Proof.
  refine (proj2 (proj2
    (@seed_not_normalized site_root_link ["https://site.test/"]
       "https://site.test/" "https://site.test" "https://site.test" 24
       (html_page [Some "/"]) [Some "/"] (Some "/")
       eq_refl eq_refl eq_refl eq_refl eq_refl eq_refl eq_refl
       _ eq_refl (or_introl eq_refl) eq_refl _))).
  - apply list_elem_of_here.
  - intros l Hl [m Hm].
    change (l ∈ ["https://site.test"]) in Hl.
    apply list_elem_of_singleton in Hl. subst l. discriminate Hm.
Defined.

(** The run of [site_root_link] in full: the root is fetched twice, as
    [https://site.test/] and as [https://site.test]. *)
Lemma seed_fetched_twice :
  (checkedLinks ∘ globals <$>
     @crawl site_root_link ["https://site.test/"] (replicate 6 O))
    = Some [mkLink "https://site.test/" (Code 200) None;
            mkLink "https://site.test" (Code 200) None] /\
  (checked ∘ globals <$>
     @crawl site_root_link ["https://site.test/"] (replicate 6 O)) = Some 2%nat /\
  (all_returned <$>
     @crawl site_root_link ["https://site.test/"] (replicate 6 O)) = Some true.
Proof. repeat split; vm_compute; reflexivity. Qed.

(** * Further properties of the program *)

(** ** One worker does all the work *)

Section Serial.
Context {platform : Platform}.

Lemma drive_returned origin k g : drive origin k (g, Returned) = (g, Returned).
Proof. induction k as [|k IH]; [reflexivity|]. cbn. exact IH. Qed.

(** Where only the first worker has not returned, a run is the first worker
    resumed as often as the schedule names it. *)
Lemma run_serial origin sched g w n :
  run origin sched (mkSys g (w :: replicate n Returned)) =
  mkSys (drive origin (first_worker_turns sched) (g, w)).1
        ((drive origin (first_worker_turns sched) (g, w)).2 :: replicate n Returned).
Proof.
  revert g w. induction sched as [|i sched IH]; intros g w; [reflexivity|].
  rewrite run_cons. unfold first_worker_turns. destruct i as [|i].
  - rewrite filter_cons_True by reflexivity. cbn [length drive fst snd].
    unfold step. cbn [workers globals lookup list_lookup].
    destruct (resume origin w g) as [g' w']. cbn [insert list_insert]. apply IH.
  - rewrite filter_cons_False by discriminate.
    replace (step origin (mkSys g (w :: replicate n Returned)) (S i))
      with (mkSys g (w :: replicate n Returned)); [apply IH|].
    unfold step. cbn [workers globals].
    change ((w :: replicate n Returned) !! S i) with (replicate n Returned !! i).
    destruct (replicate n Returned !! i) as [w1|] eqn:E; [|reflexivity].
    apply lookup_replicate in E as [-> Hi]. cbn [resume]. f_equal.
    cbn [insert list_insert]. f_equal. symmetry. apply list_insert_id.
    apply lookup_replicate. auto.
Qed.

Lemma drive_stable origin k k' p :
  (drive origin k p).2 = Returned -> (k <= k')%nat -> drive origin k' p = drive origin k p.
Proof.
  intros Hret Hle. replace k' with (k + (k' - k))%nat by lia.
  rewrite drive_add. destruct (drive origin k p) as [g w]. cbn [snd] in Hret. subst w.
  apply drive_returned.
Qed.

Lemma all_returned_head g w ws : all_returned (mkSys g (w :: ws)) = true -> w = Returned.
Proof. unfold all_returned. cbn. destruct w; try discriminate. reflexivity. Qed.

(** Two complete runs from the same started pool end in the same state. *)
Lemma complete_runs_agree origin g w n sched1 sched2 :
  all_returned (run origin sched1 (mkSys g (w :: replicate n Returned))) = true ->
  all_returned (run origin sched2 (mkSys g (w :: replicate n Returned))) = true ->
  run origin sched1 (mkSys g (w :: replicate n Returned)) =
  run origin sched2 (mkSys g (w :: replicate n Returned)).
Proof.
  rewrite !run_serial. intros H1%all_returned_head H2%all_returned_head.
  cbn [snd] in *.
  destruct (Nat.le_ge_cases (first_worker_turns sched1) (first_worker_turns sched2)) as [Hle|Hle].
  - rewrite (drive_stable origin _ _ _ H1 Hle). reflexivity.
  - rewrite (drive_stable origin _ _ _ H2 Hle). reflexivity.
Qed.

End Serial.

(** X1. The report does not depend on the order in which promises settle: two
    runs of the same command line that both get to the end exit with the same
    code after the same lines, from the same final state. *)
Theorem report_independent_of_schedule {platform : Platform}
    (args : list string) (sched1 sched2 : list nat) (e1 e2 : Exit) :
  main args sched1 = Some e1 -> main args sched2 = Some e2 ->
  e1 = e2 /\ crawl args sched1 = crawl args sched2.
Proof.
  unfold main, crawl.
  destruct (main_start args) as [e|origin before s0] eqn:Hstart.
  - intros [= <-] [= <-]. auto.
  - apply main_start_crawling in Hstart as (u & n & _ & _ & ->).
    destruct (all_returned (run origin sched1 _)) eqn:H1; [|discriminate].
    destruct (all_returned (run origin sched2 _)) eqn:H2; [|discriminate].
    intros [= <-] [= <-].
    assert (E : run origin sched1 (start_workers n (mkSys (seeded u) [])) =
                run origin sched2 (start_workers n (mkSys (seeded u) []))).
    { destruct n as [|n].
      - cbn [start_workers]. rewrite !run_no_worker. reflexivity.
      - rewrite start_workers_seeded in *. apply complete_runs_agree; assumption. }
    rewrite E. auto.
Qed.

Lemma report_independent_of_schedule_witness :
  @main site_external_down ["https://site.test/"; "--concurrent=3"] [O; O; O; O; O]
  = @main site_external_down ["https://site.test/"; "--concurrent=3"]
      [2; O; O; 1; O; O; 5; O; O]%nat.
Proof.
  destruct (@main site_external_down ["https://site.test/"; "--concurrent=3"]
              [O; O; O; O; O]) as [e1|] eqn:E1; [|vm_compute in E1; discriminate].
  destruct (@main site_external_down ["https://site.test/"; "--concurrent=3"]
              [2; O; O; 1; O; O; 5; O; O]%nat) as [e2|] eqn:E2;
    [|vm_compute in E2; discriminate].
  f_equal. exact (proj1 (report_independent_of_schedule _ _ _ _ _ E1 E2)).
Defined.

(** X2. Nor does it depend on the size of the pool: two command lines with the
    same seed and the same [-v] whose [--concurrent] both give at least one
    worker crawl alike and report alike, under every schedule. *)
Theorem report_independent_of_worker_count {platform : Platform}
    (args1 args2 : list string) (n1 n2 : nat) (sched : list nat) :
  inputURL (parse_args args1) = inputURL (parse_args args2) ->
  verbose (parse_args args1) = verbose (parse_args args2) ->
  worker_count (concurrentRequests (parse_args args1)) = Ok (S n1) ->
  worker_count (concurrentRequests (parse_args args2)) = Ok (S n2) ->
  main args1 sched = main args2 sched /\
  (globals <$> crawl args1 sched) = (globals <$> crawl args2 sched).
Proof.
  intros Hu Hv H1 H2. unfold main, crawl, main_start. rewrite <- Hu, <- Hv, H1, H2.
  destruct (truthy (inputURL (parse_args args1))) as [u|]; [|auto].
  destruct (URL_origin u) as [origin|m]; [|auto].
  rewrite !start_workers_seeded, !run_serial. cbn [globals fmap option_fmap option_map].
  split; [|reflexivity].
  unfold all_returned. cbn [workers forallb globals].
  assert (Hrep : forall k, forallb (fun w => match w with Returned => true | _ => false end)
                   (replicate k Returned) = true).
  { intros k. induction k; [reflexivity|]. cbn. assumption. }
  rewrite !Hrep. reflexivity.
Qed.

Lemma report_independent_of_worker_count_witness :
  @main site_external_down ["https://site.test/"; "--concurrent=1"] [O; O; O; O; O]
  = @main site_external_down ["https://site.test/"] [O; O; O; O; O].
Proof.
  exact (proj1 (@report_independent_of_worker_count site_external_down
                  ["https://site.test/"; "--concurrent=1"] ["https://site.test/"]
                  0 24 [O; O; O; O; O] eq_refl eq_refl eq_refl eq_refl)).
Defined.

(** ** The counters and the progress line (lines 151-156) *)

Section Counters.
Context {platform : Platform}.

Lemma enqueue_links_counters origin links g :
  checked (enqueue_links origin links g).1 = checked g /\
  isProcessing (enqueue_links origin links g).1 = isProcessing g /\
  (totalLinks (enqueue_links origin links g).1 + length (queue g) =
   totalLinks g + length (queue (enqueue_links origin links g).1))%nat.
Proof.
  revert g. induction links as [|link rest IH]; intros g; [auto|].
  cbn [enqueue_links]. destruct (decide _); [apply IH|].
  destruct (URL_origin link) as [o|m]; [|auto].
  destruct (IH (totalLinks_incr (queue_push
             (if String.eqb o origin then CheckLinks link else CheckExternal link)
             (queuedLinks_add link g)))) as (-> & -> & H).
  cbn in H. rewrite length_app in H. cbn in H. repeat split; first [lia | assumption].
Qed.

Lemma counters_same g g' k :
  checked g' = checked g -> queue g' = queue g -> totalLinks g' = totalLinks g ->
  checkedLinks g' = checkedLinks g -> isProcessing g' = isProcessing g ->
  counters_inv g k -> counters_inv g' k.
Proof. unfold counters_inv. intros -> -> -> -> ->. auto. Qed.

Lemma resume_counters origin w g k :
  counters_inv g (fetches w + k) ->
  counters_inv (resume origin w g).1 (fetches (resume origin w g).2 + k).
Proof.
  unfold counters_inv. intros (Hc & Hn & Hp).
  destruct w as [x|x response|x| |]; cbn [resume fetches] in *.
  - destruct (fetch x) as [response|m]; cbn [checkLinks_fetched].
    + unfold checkLinks_response.
      destruct (400 <=? response_status response);
        [cbn; rewrite coded_snoc, length_app; cbn; repeat split; first [lia | assumption]|].
      destruct ((300 <=? response_status response) && (response_status response <? 400)).
      * destruct (truthy (header_location response)) as [location|];
          [|cbn; rewrite coded_snoc, length_app; cbn; repeat split; first [lia | assumption]].
        unfold follow_redirect. destruct (URL_href location x) as [target|m].
        -- destruct (decide _); cbn; rewrite coded_snoc, ?length_app; cbn;
             repeat split; first [lia | assumption].
        -- cbn. rewrite !coded_snoc, !length_app. cbn. repeat split; first [lia | assumption].
      * destruct (negb _); cbn; rewrite coded_snoc, length_app; cbn; repeat split; first [lia | assumption].
    + cbn. rewrite coded_snoc, length_app. cbn. repeat split; first [lia | assumption].
  - unfold checkLinks_text. destruct (response_anchors response) as [anchors|m].
    + destruct (enqueue_links_counters origin (extract_links x anchors) g) as (E1 & E2 & E3).
      destruct (enqueue_links_lists origin (extract_links x anchors) g) as (_ & E4 & _).
      destruct (enqueue_links origin (extract_links x anchors) g) as [g' [m|]];
        cbn [fst snd] in *; cbn; rewrite ?coded_snoc, ?length_app, E1, E2, E4; cbn;
        repeat split; first [lia | assumption].
    + cbn. rewrite coded_snoc, length_app. cbn. repeat split; first [lia | assumption].
  - unfold external_fetched. destruct (fetch x) as [response|m].
    + destruct (400 <=? response_status response); cbn;
        rewrite coded_snoc, length_app; cbn; repeat split; first [lia | assumption].
    + cbn. repeat split; first [lia | assumption].
  - unfold worker_loop. destruct (queue g) as [|[x|x] rest] eqn:Hq; cbn [task_call].
    + cbn. rewrite Hq. cbn. auto.
    + unfold checkLinks_call. destruct (decide _); cbn in *; repeat split; first [lia | assumption].
    + cbn in *. repeat split; first [lia | assumption].
  - cbn. auto.
Qed.

Lemma in_flight_insert ws i w :
  ws !! i = Some w ->
  exists k, sum_list_with fetches ws = (fetches w + k)%nat /\
            forall w', sum_list_with fetches (<[i := w']> ws) = (fetches w' + k)%nat.
Proof.
  revert i. induction ws as [|w0 ws IH]; intros i Hi; [discriminate|].
  destruct i as [|i].
  - injection Hi as ->. exists (sum_list_with fetches ws). split; [reflexivity|].
    intros w'. reflexivity.
  - destruct (IH i Hi) as (k & Hk & Hk'). exists (fetches w0 + k)%nat. split.
    + cbn. rewrite Hk. lia.
    + intros w'. cbn. rewrite Hk'. lia.
Qed.

Lemma counters_step origin s i :
  counters_inv (globals s) (in_flight s) ->
  counters_inv (globals (step origin s i)) (in_flight (step origin s i)).
Proof.
  intros Hs. unfold step, in_flight in *.
  destruct (workers s !! i) as [w|] eqn:Hw; [|exact Hs].
  destruct (in_flight_insert _ _ _ Hw) as (k & Hk & Hk').
  rewrite Hk in Hs. apply (resume_counters origin) in Hs.
  destruct (resume origin w (globals s)) as [g' w']. cbn [globals workers fst snd] in *.
  rewrite Hk'. exact Hs.
Qed.

Lemma counters_start u n :
  counters_inv (globals (start_workers n (mkSys (seeded u) [])))
               (in_flight (start_workers n (mkSys (seeded u) []))).
Proof.
  apply (start_workers_invariant (fun s => counters_inv (globals s) (in_flight s))).
  - intros g ws Hs. unfold in_flight in *. cbn [globals workers] in *.
    rewrite sum_list_with_app. cbn [sum_list_with].
    pose proof (resume_counters "" AwaitTimeout g (sum_list_with fetches ws)) as H.
    cbn [resume fetches] in H. specialize (H Hs).
    destruct (worker_loop g) as [g' w']. cbn [fst snd] in *.
    replace (sum_list_with fetches ws + (fetches w' + 0))%nat
      with (fetches w' + sum_list_with fetches ws)%nat by lia.
    exact H.
  - unfold counters_inv, in_flight. cbn. auto.
Qed.

(** [checked] counts the progress lines of the workers. *)
Lemma resume_checked origin w g :
  checked (resume origin w g).1 = (checked g + length (status_written w g))%nat.
Proof.
  destruct w as [x|x response|x| |]; cbn [resume status_written fst].
  - destruct (fetch x) as [response|m]; cbn [checkLinks_fetched length]; [|cbn; lia].
    unfold checkLinks_response.
    destruct (400 <=? response_status response); [cbn; lia|].
    destruct ((300 <=? response_status response) && (response_status response <? 400)).
    + destruct (truthy (header_location response)) as [location|]; [|cbn; lia].
      unfold follow_redirect. destruct (URL_href location x) as [target|m]; [|cbn; lia].
      destruct (decide _); cbn; lia.
    + destruct (negb _); cbn; lia.
  - unfold checkLinks_text. destruct (response_anchors response) as [anchors|m]; [|cbn; lia].
    destruct (enqueue_links_counters origin (extract_links x anchors) g) as (E & _).
    destruct (enqueue_links origin (extract_links x anchors) g) as [g' [m|]];
      cbn [fst snd] in *; cbn; lia.
  - unfold external_fetched. destruct (fetch x) as [response|m]; [|cbn; lia].
    destruct (400 <=? response_status response); cbn; lia.
  - unfold worker_loop. destruct (queue g) as [|[x|x] rest]; cbn [task_call fst]; [cbn; lia| |cbn; lia].
    unfold checkLinks_call. destruct (decide _); cbn; lia.
  - cbn. lia.
Qed.

(** A line is written by a worker that awaits a [fetch]. *)
Lemma status_written_fetches w g line :
  line ∈ status_written w g ->
  fetches w = 1%nat /\ status_written w g = [updateStatus (checked_incr g)].
Proof.
  destruct w as [x|x response|x| |]; cbn [status_written fetches];
    try (intros H; apply elem_of_nil in H; contradiction);
    destruct (fetch x); intros H; try (apply elem_of_nil in H; contradiction);
    auto.
Qed.

Lemma updateStatus_processing g :
  isProcessing g = true ->
  updateStatus g = hourglass +:+ " Checked: " +:+ pretty (Z.of_nat (checked g)) +:+ "/"
                     +:+ pretty (Z.of_nat (totalLinks g)) +:+ " links".
Proof. intros H. unfold updateStatus. rewrite H. reflexivity. Qed.

Lemma status_lines_numbered origin sched s k line :
  counters_inv (globals s) (in_flight s) ->
  status_lines origin sched s !! k = Some line ->
  exists t, (checked (globals s) + 1 + k <= t)%nat /\
    line = hourglass +:+ " Checked: " +:+ pretty (Z.of_nat (checked (globals s) + 1 + k))
             +:+ "/" +:+ pretty (Z.of_nat t) +:+ " links".
Proof.
  revert s k. induction sched as [|i sched IH]; intros s k Hs Hk; [discriminate|].
  cbn [status_lines] in Hk.
  pose proof (counters_step origin s i Hs) as Hs'.
  assert (Hc : checked (globals (step origin s i)) =
               (checked (globals s)
                + length (from_option (fun w => status_written w (globals s)) []
                            (workers s !! i)))%nat).
  { unfold step. destruct (workers s !! i) as [w|]; [|cbn; lia].
    pose proof (resume_checked origin w (globals s)) as H.
    destruct (resume origin w (globals s)). exact H. }
  destruct (workers s !! i) as [w|] eqn:Hw; cbn [from_option] in *.
  - destruct (status_written w (globals s)) as [|l ls] eqn:Hwr.
    + cbn [app length] in *. destruct (IH _ _ Hs' Hk) as (t & Ht & ->).
      rewrite Hc, Nat.add_0_r in Ht |- *. exists t. split; [exact Ht | reflexivity].
    + destruct (status_written_fetches w (globals s) l) as [Hf E];
        [rewrite Hwr; apply list_elem_of_here|].
      rewrite Hwr in E. injection E as -> ->. cbn [app length] in *.
      destruct k as [|k].
      * injection Hk as <-. destruct Hs as (Hle & _ & Hp).
        destruct (in_flight_insert _ _ _ Hw) as (n & Hn & _). unfold in_flight in Hle.
        exists (totalLinks (globals s)). split; [lia|].
        rewrite updateStatus_processing by exact Hp. cbn [checked checked_incr totalLinks].
        replace (checked (globals s) + 1 + 0)%nat with (S (checked (globals s))) by lia.
        reflexivity.
      * cbn [lookup list_lookup] in Hk. destruct (IH _ _ Hs' Hk) as (t & Ht & ->).
        rewrite Hc. exists t. split; [lia|].
        replace (checked (globals s) + 1 + 1 + k)%nat with (checked (globals s) + 1 + S k)%nat
          by lia.
        reflexivity.
  - cbn [app length] in *. destruct (IH _ _ Hs' Hk) as (t & Ht & ->).
    rewrite Hc, Nat.add_0_r in Ht |- *. exists t. split; [exact Ht | reflexivity].
Qed.

Lemma start_workers_checked u n :
  checked (globals (start_workers n (mkSys (seeded u) []))) = O.
Proof.
  apply (start_workers_invariant (fun s => checked (globals s) = O)); [|reflexivity].
  intros g ws Hg. cbn [globals] in *.
  pose proof (resume_checked "" AwaitTimeout g) as H. cbn [resume status_written length] in H.
  lia.
Qed.

End Counters.

(** X5. The progress lines of a run are numbered: the line written first, by
    [main], and every line written by a worker read
    [<hourglass> Checked: k/t links], where [k] is the number of lines written
    before (the number of responses received so far) and is never above the
    total [t]. *)
Theorem progress_line {platform : Platform}
    (args : list string) (sched : list nat) (k : nat) (line : string) :
  progress args sched !! k = Some line ->
  exists t : nat, (k <= t)%nat /\ (1 <= t)%nat /\
    line = hourglass +:+ " Checked: " +:+ pretty (Z.of_nat k) +:+ "/"
             +:+ pretty (Z.of_nat t) +:+ " links".
Proof.
  unfold progress.
  destruct (truthy (inputURL (parse_args args))) as [u|]; [|discriminate].
  destruct (URL_origin u) as [origin|]; [|discriminate].
  destruct k as [|k].
  - intros [= <-]. exists 1%nat. split; [lia|]. split; [lia|]. reflexivity.
  - cbn [lookup list_lookup].
    destruct (worker_count _) as [n|]; [|discriminate]. intros Hk.
    destruct (status_lines_numbered origin sched _ k line (counters_start u n) Hk)
      as (t & Ht & ->).
    rewrite start_workers_checked in *. exists t. split; [lia|]. split; [lia|].
    reflexivity.
Qed.

Lemma progress_line_witness :
  let args := ["https://site.test/"; "--concurrent=1"] in
  let sched := [O; O; O; O; O; O; O] in
  @progress site_dead args sched
    = [hourglass +:+ " Checked: 0/1 links"; hourglass +:+ " Checked: 1/1 links";
       hourglass +:+ " Checked: 2/3 links"] /\
  exists t : nat, (2 <= t)%nat /\ (1 <= t)%nat /\
    hourglass +:+ " Checked: 2/3 links"
      = hourglass +:+ " Checked: " +:+ pretty (Z.of_nat 2) +:+ "/"
          +:+ pretty (Z.of_nat t) +:+ " links".
Proof.
  intros args sched. split; [vm_compute; reflexivity|].
  apply (@progress_line site_dead args sched 2). vm_compute. reflexivity.
Defined.

(** ** Growth of the module state *)

Section Monotone.
Context {platform : Platform}.

Lemma occ_elem u l : u ∈ l -> (0 < occ u l)%nat.
Proof.
  induction l as [|x l IH]; intros Hin; [apply elem_of_nil in Hin; contradiction|].
  cbn. apply elem_of_cons in Hin as [->|Hin].
  - rewrite decide_True by reflexivity. lia.
  - specialize (IH Hin). lia.
Qed.

Global Instance grows_refl : Reflexive grows.
Proof. intros g. unfold grows. repeat split; try reflexivity. Qed.

Global Instance grows_trans : Transitive grows.
Proof.
  intros a b c (A1 & A2 & A3 & A4 & A5 & A6) (B1 & B2 & B3 & B4 & B5 & B6).
  unfold grows. repeat split; try (etransitivity; eassumption).
Qed.

Lemma grows_intro g g' cs ds :
  checkedLinks g' = checkedLinks g ++ cs -> deadLinks g' = deadLinks g ++ ds ->
  visited g ⊆ visited g' -> queuedLinks g ⊆ queuedLinks g' ->
  (checked g <= checked g')%nat -> (totalLinks g <= totalLinks g')%nat ->
  grows g g'.
Proof.
  intros Hc Hd Hv Hq Hn Ht. unfold grows. rewrite Hc, Hd.
  repeat split; try assumption; apply prefix_app_r; reflexivity.
Qed.

Lemma enqueue_links_grows origin links g : grows g (enqueue_links origin links g).1.
Proof.
  destruct (enqueue_links_lists origin links g) as (Hd & Hc & Hv).
  destruct (enqueue_links_counters origin links g) as (Hn & _ & Ht).
  destruct (enqueue_links_queue origin links g) as [new Hq].
  apply (grows_intro _ _ [] []); rewrite ?app_nil_r; try assumption.
  - rewrite Hv. reflexivity.
  - apply enqueue_links_queuedLinks.
  - rewrite Hn. reflexivity.
  - rewrite Hq, length_app in Ht. lia.
Qed.

Ltac grow cs ds :=
  apply (grows_intro _ _ cs ds); cbn; rewrite ?app_nil_r, <- ?app_assoc;
  first [reflexivity | lia | apply union_subseteq_r].

Lemma catch_grows u m g : grows g (checkLinks_catch u m g).
Proof. grow [mkLink u FETCH_ERROR (Some m)] [mkLink u FETCH_ERROR (Some m)]. Qed.

Lemma resume_grows origin w g : grows g (resume origin w g).1.
Proof.
  destruct w as [x|x response|x| |]; cbn [resume fst].
  - destruct (fetch x) as [response|m]; cbn [checkLinks_fetched]; [|apply catch_grows].
    unfold checkLinks_response. set (st := response_status response).
    assert (H1 : grows g (checkedLinks_push (mkLink x (Code st) None) (checked_incr g)))
      by grow [mkLink x (Code st) None] (@nil LinkRecord).
    destruct (400 <=? st); cbn [fst]; [grow [mkLink x (Code st) None] [mkLink x (Code st) None]|].
    destruct ((300 <=? st) && (st <? 400)); cbn [fst].
    + destruct (truthy (header_location response)) as [location|]; cbn [fst].
      * unfold follow_redirect. destruct (URL_href location x) as [target|m].
        -- destruct (decide _); [exact H1|].
           grow [mkLink x (Code st) None] (@nil LinkRecord).
        -- etransitivity; [exact H1 | apply catch_grows].
      * grow [mkLink x (Code st) None]
             [mkLink x (Code st) (Some "Redirect with no Location header")].
    + destruct (negb _); exact H1.
  - unfold checkLinks_text. destruct (response_anchors response) as [anchors|m];
      [|apply catch_grows].
    pose proof (enqueue_links_grows origin (extract_links x anchors) g) as H.
    destruct (enqueue_links origin (extract_links x anchors) g) as [g' [m|]];
      cbn [fst] in H; [|exact H].
    etransitivity; [exact H | apply catch_grows].
  - unfold external_fetched. destruct (fetch x) as [response|m].
    + destruct (400 <=? response_status response).
      * grow [mkLink x (Code (response_status response)) None]
             [mkLink x (Code (response_status response)) None].
      * grow [mkLink x (Code (response_status response)) None] (@nil LinkRecord).
    + grow (@nil LinkRecord) [mkLink x FETCH_ERROR (Some m)].
  - unfold worker_loop. destruct (queue g) as [|[x|x] rest]; cbn [task_call fst].
    + reflexivity.
    + unfold checkLinks_call. destruct (decide _); cbn [fst];
        grow (@nil LinkRecord) (@nil LinkRecord).
    + grow (@nil LinkRecord) (@nil LinkRecord).
  - reflexivity.
Qed.

Lemma run_app origin l1 l2 s :
  run origin (l1 ++ l2) s = run origin l2 (run origin l1 s).
Proof. unfold run. apply foldl_app. Qed.

Lemma run_grows origin sched s : grows (globals s) (globals (run origin sched s)).
Proof.
  revert s. induction sched as [|i sched IH]; intros s; [reflexivity|].
  rewrite run_cons. etransitivity; [|apply IH].
  unfold step. destruct (workers s !! i) as [w|]; [|reflexivity].
  pose proof (resume_grows origin w (globals s)) as H.
  destruct (resume origin w (globals s)). exact H.
Qed.

(** ** Dead entries and their records *)

Lemma dac_grows g g' :
  deadLinks g' = deadLinks g -> checkedLinks g `prefix_of` checkedLinks g' ->
  dead_are_checked g -> dead_are_checked g'.
Proof.
  intros Hd [cs Hc] H d n Hin Hst. rewrite Hd in Hin. rewrite Hc.
  apply elem_of_app. left. eauto.
Qed.

Lemma dac_push_dead d g :
  (forall n, status d = Code n -> mkLink (url d) (Code n) None ∈ checkedLinks g) ->
  dead_are_checked g -> dead_are_checked (deadLinks_push d g).
Proof.
  intros Hd H x n Hin Hst. cbn in *.
  apply elem_of_app in Hin as [Hin| ->%list_elem_of_singleton]; eauto.
Qed.

Lemma dac_push_checked r g :
  dead_are_checked g -> dead_are_checked (checkedLinks_push r g).
Proof. apply dac_grows; [reflexivity | apply prefix_app_r; reflexivity]. Qed.

Lemma dac_catch u m g : dead_are_checked g -> dead_are_checked (checkLinks_catch u m g).
Proof.
  intros H. apply dac_push_dead; [discriminate|]. apply dac_push_checked, H.
Qed.

Lemma dac_resume origin w g :
  dead_are_checked g -> dead_are_checked (resume origin w g).1.
Proof.
  intros Hg. destruct w as [x|x response|x| |]; cbn [resume fst].
  - destruct (fetch x) as [response|m]; cbn [checkLinks_fetched]; [|apply dac_catch, Hg].
    unfold checkLinks_response. set (st := response_status response).
    set (g1 := checkedLinks_push (mkLink x (Code st) None) (checked_incr g)).
    assert (H1 : dead_are_checked g1).
    { apply dac_push_checked. revert Hg. apply dac_grows; reflexivity. }
    assert (Hin : mkLink x (Code st) None ∈ checkedLinks g1).
    { cbn. apply elem_of_app. right. apply list_elem_of_here. }
    destruct (400 <=? st); cbn [fst].
    { apply dac_push_dead; [|exact H1]. intros n [= <-]. exact Hin. }
    destruct ((300 <=? st) && (st <? 400)); cbn [fst].
    + destruct (truthy (header_location response)) as [location|]; cbn [fst].
      * unfold follow_redirect. destruct (URL_href location x) as [target|m];
          [|apply dac_catch, H1].
        destruct (decide _); [exact H1|].
        revert H1. apply dac_grows; reflexivity.
      * apply dac_push_dead; [|exact H1]. intros n [= <-]. exact Hin.
    + destruct (negb _); exact H1.
  - unfold checkLinks_text. destruct (response_anchors response) as [anchors|m];
      [|apply dac_catch, Hg].
    destruct (enqueue_links_lists origin (extract_links x anchors) g) as (Hd & Hc & _).
    destruct (enqueue_links origin (extract_links x anchors) g) as [g' [m|]];
      cbn [fst] in *.
    + apply dac_catch. revert Hg. apply dac_grows; [exact Hd | rewrite Hc; reflexivity].
    + revert Hg. apply dac_grows; [exact Hd | rewrite Hc; reflexivity].
  - unfold external_fetched. destruct (fetch x) as [response|m].
    + set (st := response_status response).
      assert (H1 : dead_are_checked
                     (checkedLinks_push (mkLink x (Code st) None) (checked_incr g))).
      { apply dac_push_checked. revert Hg. apply dac_grows; reflexivity. }
      destruct (400 <=? st); [|exact H1].
      apply dac_push_dead; [|exact H1]. intros n [= <-]. cbn.
      apply elem_of_app. right. apply list_elem_of_here.
    + apply dac_push_dead; [discriminate | exact Hg].
  - unfold worker_loop. destruct (queue g) as [|[x|x] rest]; cbn [task_call fst];
      [exact Hg | | revert Hg; apply dac_grows; reflexivity].
    unfold checkLinks_call. destruct (decide _); cbn [fst];
      revert Hg; apply dac_grows; reflexivity.
  - exact Hg.
Qed.

End Monotone.

(** X6. Nothing recorded is ever removed or rewritten: as a run goes on, the
    entries of [checkedLinks] and [deadLinks] stay where they are and new ones
    are appended, [visited] and [queuedLinks] only gain addresses, and the two
    counters never decrease. *)
Theorem results_only_grow {platform : Platform}
    (args : list string) (sched more : list nat) (s s' : Sys) :
  crawl args sched = Some s -> crawl args (sched ++ more) = Some s' ->
  checkedLinks (globals s) `prefix_of` checkedLinks (globals s') /\
  deadLinks (globals s) `prefix_of` deadLinks (globals s') /\
  visited (globals s) ⊆ visited (globals s') /\
  queuedLinks (globals s) ⊆ queuedLinks (globals s') /\
  (checked (globals s) <= checked (globals s'))%nat /\
  (totalLinks (globals s) <= totalLinks (globals s'))%nat.
Proof.
  unfold crawl. destruct (main_start args) as [|origin before s0]; [discriminate|].
  intros [= <-] [= <-]. rewrite run_app. apply run_grows.
Qed.

Lemma results_only_grow_witness :
  exists s s',
    @crawl site_external_down ["https://site.test/"] [O; O] = Some s /\
    @crawl site_external_down ["https://site.test/"] ([O; O] ++ [O; O; O]) = Some s' /\
    checkedLinks (globals s) `prefix_of` checkedLinks (globals s') /\
    deadLinks (globals s) `prefix_of` deadLinks (globals s').
Proof.
  eexists. eexists. split; [reflexivity|]. split; [reflexivity|].
  destruct (@results_only_grow site_external_down ["https://site.test/"]
              [O; O] [O; O; O] _ _ eq_refl eq_refl) as (H1 & H2 & _).
  split; assumption.
Defined.

(** X7. Every dead link reported with an HTTP status was recorded in
    [checkedLinks] with that status. *)
Theorem dead_links_are_checked {platform : Platform}
    (args : list string) (sched : list nat) (s : Sys) (d : LinkRecord) (n : Z) :
  crawl args sched = Some s ->
  d ∈ deadLinks (globals s) -> status d = Code n ->
  mkLink (url d) (Code n) None ∈ checkedLinks (globals s).
Proof.
  intros Hs. revert d n.
  apply (crawl_globals_invariant dead_are_checked) with (args := args) (sched := sched);
    [| |exact Hs].
  - intros u d n Hin. apply elem_of_nil in Hin. contradiction.
  - intros origin w g. apply dac_resume.
Qed.

Lemma dead_links_are_checked_witness :
  exists s,
    @crawl site_seed_redirect ["https://site.test/"] [O] = Some s /\
    mkLink "https://site.test/" (Code 301) None ∈ checkedLinks (globals s).
Proof.
  eexists. split; [reflexivity|].
  apply (@dead_links_are_checked site_seed_redirect ["https://site.test/"] [O] _
           (mkLink "https://site.test/" (Code 301)
              (Some "Redirect with no Location header")) 301 eq_refl);
    [|reflexivity].
  vm_compute. apply list_elem_of_here.
Defined.

(** X8. The guard of line 25 never fires: a queued [checkLinks] task is for an
    address that is not in [visited], so the worker that takes it from the
    head of the queue issues its [fetch]. *)
Theorem visited_guard_never_fires {platform : Platform}
    (args : list string) (sched : list nat) (s : Sys) (u : string) :
  crawl args sched = Some s ->
  CheckLinks u ∈ queue (globals s) ->
  (u ∉ visited (globals s)) /\
  (forall rest, queue (globals s) = CheckLinks u :: rest ->
     worker_loop (globals s) =
       (visited_add u (queue_set rest (globals s)), AwaitFetch u)).
Proof.
  intros Hs Hin.
  assert (Hnv : u ∉ visited (globals s)).
  { intros Hv.
    destruct (crawl_invariant sys_inv sys_inv_start sys_inv_step _ _ _ Hs u)
      as (HA & HB & _ & _ & HV & _).
    specialize (HV Hv).
    assert (Hq : (0 < occ u (task_url <$> queue (globals s)))%nat).
    { apply occ_elem. apply (list_elem_of_fmap_2 task_url) in Hin. exact Hin. }
    lia. }
  split; [exact Hnv|]. intros rest Hq. unfold worker_loop. rewrite Hq.
  cbn [task_call]. unfold checkLinks_call. rewrite decide_False; [reflexivity|].
  exact Hnv.
Qed.

Lemma visited_guard_never_fires_witness :
  exists s,
    @crawl site_root_link ["https://site.test/"] [O; O] = Some s /\
    "https://site.test" ∉ visited (globals s).
Proof.
  eexists. split; [reflexivity|].
  apply (@visited_guard_never_fires site_root_link ["https://site.test/"] [O; O] _
           "https://site.test" eq_refl).
  vm_compute. apply list_elem_of_here.
Defined.

(** ** Fragments *)

(** The bytes of a white space code point of more than one byte are all above
    the ASCII range. *)
Lemma isWhiteSpace2_bytes a b :
  JS.isWhiteSpace2 a b = true ->
  (128 <= nat_of_ascii a)%nat /\ (128 <= nat_of_ascii b)%nat.
Proof.
  unfold JS.isWhiteSpace2. rewrite andb_true_iff, !Nat.eqb_eq. lia.
Qed.

Lemma isWhiteSpace3_bytes a b c :
  JS.isWhiteSpace3 a b c = true ->
  (128 <= nat_of_ascii a)%nat /\ (128 <= nat_of_ascii b)%nat /\ (128 <= nat_of_ascii c)%nat.
Proof.
  unfold JS.isWhiteSpace3. cbv zeta.
  rewrite !orb_true_iff, !andb_true_iff, !orb_true_iff, !andb_true_iff,
    !Nat.eqb_eq, !Nat.leb_le.
  lia.
Qed.

(** No white space code point has the byte of [#] in it. *)
Lemma isWhiteSpace2_hash a b :
  a = "#"%char \/ b = "#"%char -> JS.isWhiteSpace2 a b = false.
Proof.
  intros H. destruct (JS.isWhiteSpace2 a b) eqn:E; [|reflexivity].
  apply isWhiteSpace2_bytes in E as [Ha Hb].
  destruct H as [-> | ->]; [vm_compute in Ha | vm_compute in Hb]; lia.
Qed.

Lemma isWhiteSpace3_hash a b c :
  a = "#"%char \/ b = "#"%char \/ c = "#"%char -> JS.isWhiteSpace3 a b c = false.
Proof.
  intros H. destruct (JS.isWhiteSpace3 a b c) eqn:E; [|reflexivity].
  apply isWhiteSpace3_bytes in E as (Ha & Hb & Hc).
  destruct H as [-> | [-> | ->]];
    [vm_compute in Ha | vm_compute in Hb | vm_compute in Hc]; lia.
Qed.

Ltac no_hash :=
  rewrite ?isWhiteSpace2_hash, ?isWhiteSpace3_hash by auto; cbn iota.

Lemma trimStart_length s : (String.length (JS.trimStart s) <= String.length s)%nat.
Proof.
  remember (String.length s) as n eqn:Hn.
  assert (Hle : (String.length s <= n)%nat) by lia. clear Hn.
  revert s Hle. induction n as [|n IH]; intros s Hle.
  - destruct s; [cbn; lia | cbn in Hle; lia].
  - destruct s as [|a s1]; [cbn; lia|]. cbn [JS.trimStart].
    cbn [String.length] in Hle.
    destruct (JS.isWhiteSpace a).
    { specialize (IH s1). cbn [String.length]. lia. }
    destruct s1 as [|b s2]; cbn iota; [cbn; lia|]. cbn [String.length] in Hle.
    destruct (JS.isWhiteSpace2 a b).
    { specialize (IH s2). cbn [String.length]. lia. }
    destruct s2 as [|c s3]; cbn iota; [cbn; lia|]. cbn [String.length] in Hle.
    destruct (JS.isWhiteSpace3 a b c); [|cbn [String.length]; lia].
    specialize (IH s3). cbn [String.length]. lia.
Qed.
(** [trimStart] gives its argument back or something shorter. *)
Lemma trimStart_shorter s :
  JS.trimStart s = s \/ (String.length (JS.trimStart s) < String.length s)%nat.
Proof.
  destruct s as [|a s1]; [left; reflexivity|]. cbn [JS.trimStart].
  destruct (JS.isWhiteSpace a).
  { right. pose proof (trimStart_length s1). cbn [String.length]. lia. }
  destruct s1 as [|b s2]; cbn iota; [left; reflexivity|].
  destruct (JS.isWhiteSpace2 a b).
  { right. pose proof (trimStart_length s2). cbn [String.length]. lia. }
  destruct s2 as [|c s3]; cbn iota; [left; reflexivity|].
  destruct (JS.isWhiteSpace3 a b c); [|left; reflexivity].
  right. pose proof (trimStart_length s3). cbn [String.length]. lia.
Qed.

Lemma trimEnd_length s : (String.length (JS.trimEnd s) <= String.length s)%nat.
Proof.
  induction s as [|c s IH]; [reflexivity|]. cbn [JS.trimEnd].
  destruct (String.eqb (JS.trimStart (String c s)) ""); cbn [String.length]; lia.
Qed.

(** A string that [trim] leaves alone does not start with white space. *)
Lemma trim_fixed s : JS.trim s = s -> JS.trimStart s = s.
Proof.
  unfold JS.trim. intros E.
  destruct (trimStart_shorter s) as [H|H]; [exact H|].
  apply (f_equal String.length) in E.
  pose proof (trimEnd_length (JS.trimStart s)). lia.
Qed.

(** What holds a [#] is not white space only. *)
Lemma trimStart_hash x f : JS.trimStart (x +:+ String "#" f) <> "".
Proof.
  remember (String.length x) as n eqn:Hn.
  assert (Hle : (String.length x <= n)%nat) by lia. clear Hn.
  revert x Hle. induction n as [|n IH]; intros x Hle.
  - destruct x as [|a x1]; [|cbn in Hle; lia].
    change ("" +:+ String "#" f) with (String "#" f). cbn [JS.trimStart].
    change (JS.isWhiteSpace "#") with false. cbn iota.
    destruct f as [|b s2]; cbn iota; [discriminate|]. no_hash.
    destruct s2 as [|c s3]; cbn iota; [discriminate|]. no_hash. discriminate.
  - destruct x as [|a x1]; [apply IH; cbn; lia|].
    cbn [String.length] in Hle.
    change (String a x1 +:+ String "#" f) with (String a (x1 +:+ String "#" f)).
    cbn [JS.trimStart].
    destruct (JS.isWhiteSpace a); [apply IH; lia|].
    destruct x1 as [|b x2].
    { change ("" +:+ String "#" f) with (String "#" f). cbn iota. no_hash.
      destruct f as [|c s3]; cbn iota; [discriminate|]. no_hash. discriminate. }
    cbn [String.length] in Hle.
    change (String b x2 +:+ String "#" f) with (String b (x2 +:+ String "#" f)). cbn iota.
    destruct (JS.isWhiteSpace2 a b); [apply IH; lia|].
    destruct x2 as [|c x3].
    { change ("" +:+ String "#" f) with (String "#" f). cbn iota. no_hash. discriminate. }
    cbn [String.length] in Hle.
    change (String c x3 +:+ String "#" f) with (String c (x3 +:+ String "#" f)). cbn iota.
    destruct (JS.isWhiteSpace3 a b c); [apply IH; lia | discriminate].
Qed.

(** A string that does not start with white space still does not once [#]
    and a fragment follow it. *)
Lemma trimStart_append h f :
  h <> "" -> JS.trimStart h = h ->
  JS.trimStart (h +:+ String "#" f) = h +:+ String "#" f.
Proof.
  intros Hne Hh. destruct h as [|a h1]; [contradiction|]. clear Hne.
  change (String a h1 +:+ String "#" f) with (String a (h1 +:+ String "#" f)).
  cbn [JS.trimStart] in *.
  destruct (JS.isWhiteSpace a).
  { exfalso. pose proof (trimStart_length h1) as L. rewrite Hh in L.
    cbn [String.length] in L. lia. }
  destruct h1 as [|b h2].
  { change ("" +:+ String "#" f) with (String "#" f). cbn iota. no_hash.
    destruct f as [|c s3]; cbn iota; [reflexivity|]. no_hash. reflexivity. }
  change (String b h2 +:+ String "#" f) with (String b (h2 +:+ String "#" f)). cbn iota.
  destruct (JS.isWhiteSpace2 a b).
  { exfalso. pose proof (trimStart_length h2) as L. rewrite Hh in L.
    cbn [String.length] in L. lia. }
  destruct h2 as [|c h3].
  { change ("" +:+ String "#" f) with (String "#" f). cbn iota. no_hash. reflexivity. }
  change (String c h3 +:+ String "#" f) with (String c (h3 +:+ String "#" f)). cbn iota.
  destruct (JS.isWhiteSpace3 a b c); [|reflexivity].
  exfalso. pose proof (trimStart_length h3) as L. rewrite Hh in L.
  cbn [String.length] in L. lia.
Qed.

(** [trimEnd] does not reach before a [#]. *)
Lemma trimEnd_append h f :
  JS.trimEnd (h +:+ String "#" f) = h +:+ String "#" (JS.trimEnd f).
Proof.
  induction h as [|a h IH].
  - change ("" +:+ String "#" f) with (String "#" f).
    change ("" +:+ String "#" (JS.trimEnd f)) with (String "#" (JS.trimEnd f)).
    cbn [JS.trimEnd].
    destruct (String.eqb_spec (JS.trimStart (String "#" f)) "") as [E|_]; [|reflexivity].
    exfalso. exact (trimStart_hash "" f E).
  - change (String a h +:+ String "#" f) with (String a (h +:+ String "#" f)).
    cbn [JS.trimEnd]. rewrite IH.
    destruct (String.eqb_spec (JS.trimStart (String a (h +:+ String "#" f))) "") as [E|_];
      [|reflexivity].
    exfalso. exact (trimStart_hash (String a h) f E).
Qed.

Lemma split_0_no_sep c s : JS.includes (String c "") s = false -> JS.split_0 c s = s.
Proof.
  induction s as [|d s IH]; [reflexivity|]. cbn [JS.includes JS.split_0 String.prefix].
  destruct (Ascii.eqb_spec d c) as [->|Hne].
  - destruct (ascii_dec c c); [|contradiction]. destruct s; discriminate.
  - destruct (ascii_dec c d) as [->|_]; [contradiction|].
    cbn [orb]. intros H. rewrite IH by exact H. reflexivity.
Qed.

Lemma split_0_append c a b :
  JS.includes (String c "") a = false -> JS.split_0 c (a +:+ String c b) = a.
Proof.
  induction a as [|d a IH].
  - intros _. change ("" +:+ String c b) with (String c b).
    cbn [JS.split_0]. rewrite Ascii.eqb_refl. reflexivity.
  - change (String d a +:+ String c b) with (String d (a +:+ String c b)).
    cbn [JS.includes JS.split_0 String.prefix].
    destruct (Ascii.eqb_spec d c) as [->|Hne].
    + destruct (ascii_dec c c); [|contradiction]. destruct a; discriminate.
    + destruct (ascii_dec c d) as [->|_]; [contradiction|].
      cbn [orb]. intros H. rewrite IH by exact H. reflexivity.
Qed.

(** A prefix without [c] is a prefix of [a] followed by [c] only if it is one
    of [a]. *)
Lemma prefix_append c p a b :
  JS.includes (String c "") p = false ->
  String.prefix p (a +:+ String c b) = String.prefix p a.
Proof.
  revert a. induction p as [|x p IH]; intros a Hp; [destruct a; reflexivity|].
  cbn [JS.includes String.prefix] in Hp.
  destruct (ascii_dec c x) as [->|Hne].
  { destruct p; discriminate. }
  cbn [orb] in Hp.
  destruct a as [|d a].
  - change ("" +:+ String c b) with (String c b). cbn [String.prefix].
    destruct (ascii_dec x c) as [->|_]; [contradiction | reflexivity].
  - change (String d a +:+ String c b) with (String d (a +:+ String c b)).
    cbn [String.prefix]. destruct (ascii_dec x d); [apply IH, Hp | reflexivity].
Qed.

Lemma includes_append c a b : JS.includes (String c "") (a +:+ String c b) = true.
Proof.
  induction a as [|d a IH].
  - change ("" +:+ String c b) with (String c b). cbn [JS.includes String.prefix].
    destruct (ascii_dec c c); [|contradiction]. destruct b; reflexivity.
  - change (String d a +:+ String c b) with (String d (a +:+ String c b)).
    cbn [JS.includes]. rewrite IH. apply orb_true_r.
Qed.

Lemma href_accepted_fragment href f :
  href_accepted href = true -> JS.includes "#" href = false ->
  href_accepted (href +:+ String "#" f) = true.
Proof.
  unfold href_accepted, JS.startsWith. intros Hacc Hno.
  rewrite !(prefix_append "#") by reflexivity.
  destruct href as [|c href]; [discriminate|].
  change (String c href +:+ String "#" f) with (String c (href +:+ String "#" f)).
  apply andb_true_iff in Hacc as [Hacc Hab].
  apply andb_true_iff in Hacc as [Hacc Hhash].
  apply andb_true_iff in Hacc as [Hacc Hjs].
  apply andb_true_iff in Hacc as [_ Hmail].
  rewrite Hmail, Hjs.
  change (String.eqb (String c (href +:+ String "#" f)) "") with false.
  cbn [negb andb].
  cbn [String.prefix] in Hhash |- *.
  destruct (ascii_dec "#" c); [destruct href; discriminate|]. cbn [negb andb].
  apply negb_true_iff. apply String.eqb_neq. intros E.
  pose proof (includes_append "#" (String c href) f) as Hinc.
  change (String c href +:+ String "#" f)
    with (String c (href +:+ String "#" f)) in Hinc.
  rewrite E in Hinc. discriminate.
Qed.

(** X10. Whatever follows a [#] in an href is ignored: the href [h#fragment] is
    normalized as [h] is. *)
Theorem fragment_ignored {platform : Platform} (base href fragment : string) :
  JS.trim href = href -> href_accepted href = true -> JS.includes "#" href = false ->
  normalize (Some (href +:+ "#" +:+ fragment)) base = normalize (Some href) base.
Proof.
  intros Htrim Hacc Hno. unfold normalize. cbn [from_option].
  assert (Hne : href <> "") by (intros ->; discriminate).
  assert (E : JS.trim (href +:+ "#" +:+ fragment)
              = href +:+ String "#" (JS.trimEnd fragment)).
  { unfold JS.trim. change ("#" +:+ fragment) with (String "#" fragment).
    rewrite (trimStart_append _ _ Hne (trim_fixed _ Htrim)).
    apply trimEnd_append. }
  rewrite E, Htrim, Hacc, (href_accepted_fragment _ _ Hacc Hno).
  rewrite split_0_append by exact Hno. rewrite split_0_no_sep by exact Hno.
  reflexivity.
Qed.

Lemma fragment_ignored_witness :
  @normalize site_ab (Some "/a/b#section-2") "https://site.test/"
    = Some "https://site.test/a/b".
Proof.
  refine (eq_trans (@fragment_ignored site_ab "https://site.test/" "/a/b"
                      "section-2" eq_refl eq_refl eq_refl) _).
  reflexivity.
Defined.

(** ** The command line *)

Lemma find_skip {A} (f : A -> bool) l1 x l2 :
  f x = false -> List.find f (l1 ++ x :: l2) = List.find f (l1 ++ l2).
Proof.
  intros Hx. induction l1 as [|y l1 IH]; cbn; [rewrite Hx; reflexivity|].
  destruct (f y); [reflexivity | exact IH].
Qed.

Lemma find_none {A} (f : A -> bool) l :
  (forall x, x ∈ l -> f x = false) -> List.find f l = None.
Proof.
  induction l as [|y l IH]; intros H; [reflexivity|]. cbn.
  rewrite (H y) by apply list_elem_of_here.
  apply IH. intros x Hx. apply H, list_elem_of_further, Hx.
Qed.

Lemma find_first {A} (f : A -> bool) l1 x l2 :
  (forall y, y ∈ l1 -> f y = false) -> f x = true ->
  List.find f (l1 ++ x :: l2) = Some x.
Proof.
  intros H Hx. induction l1 as [|y l1 IH]; cbn; [rewrite Hx; reflexivity|].
  rewrite (H y) by apply list_elem_of_here.
  apply IH. intros z Hz. apply H, list_elem_of_further, Hz.
Qed.

Lemma startsWith_append p s : JS.startsWith p (p +:+ s) = true.
Proof.
  unfold JS.startsWith. induction p as [|c p IH].
  - change ("" +:+ s) with s. destruct s; reflexivity.
  - change (String c p +:+ s) with (String c (p +:+ s)). cbn [String.prefix].
    destruct (ascii_dec c c); [exact IH | contradiction].
Qed.

(** The exit code does not depend on the summary being printed. *)
Lemma main_finish_code v before g :
  code (main_finish v before g) = if decide (deadLinks g = []) then 0 else 1.
Proof.
  unfold main_finish. cbn [deadLinks isProcessing_set].
  destruct (deadLinks g); reflexivity.
Qed.

(** X11. [-v], wherever it stands on the command line, changes what is printed and
    nothing else: the crawl and the exit code are the same with and without
    it. *)
Theorem verbose_only_prints {platform : Platform}
    (args1 args2 : list string) (sched : list nat) :
  crawl (args1 ++ "-v" :: args2) sched = crawl (args1 ++ args2) sched /\
  (code <$> main (args1 ++ "-v" :: args2) sched)
    = (code <$> main (args1 ++ args2) sched).
Proof.
  assert (Hu : inputURL (parse_args (args1 ++ "-v" :: args2))
               = inputURL (parse_args (args1 ++ args2)))
    by (apply find_skip; reflexivity).
  assert (Hc : concurrentRequests (parse_args (args1 ++ "-v" :: args2))
               = concurrentRequests (parse_args (args1 ++ args2))).
  { cbn [parse_args concurrentRequests]. unfold option_value.
    rewrite find_skip by reflexivity. reflexivity. }
  assert (Hstart : main_start (args1 ++ "-v" :: args2) = main_start (args1 ++ args2)).
  { unfold main_start. rewrite Hu, Hc. reflexivity. }
  unfold crawl, main. rewrite Hstart. split; [reflexivity|].
  destruct (main_start (args1 ++ args2)) as [e|origin before s]; [reflexivity|].
  destruct (all_returned (run origin sched s)); [|reflexivity].
  cbn [fmap option_fmap option_map]. rewrite !main_finish_code. reflexivity.
Qed.

(** X12. How [--concurrent] is read: without the option the pool has 25 workers;
    the first argument starting with [--concurrent=] decides, whatever
    follows it; its value ends at the next [=], and an empty value means 25
    again. *)
Theorem concurrent_option (pre post : list string) (value : string) :
  (forall a, a ∈ pre -> JS.startsWith "--concurrent=" a = false) ->
  concurrentRequests (parse_args pre) = JS.Int 25 /\
  concurrentRequests (parse_args (pre ++ ("--concurrent=" +:+ value) :: post)) =
    JS.parseInt (match JS.split_0 "=" value with
                 | EmptyString => "25"
                 | v => v
                 end).
Proof.
  intros Hpre. cbn [parse_args concurrentRequests]. unfold option_value. split.
  - rewrite find_none by exact Hpre. reflexivity.
  - rewrite find_first; [|exact Hpre|apply startsWith_append].
    cbn [mbind option_bind].
    replace (JS.split_1 "=" ("--concurrent=" +:+ value))
      with (Some (JS.split_0 "=" value)) by (vm_compute; reflexivity).
    destruct (JS.split_0 "=" value); reflexivity.
Qed.

Lemma concurrent_option_witness :
  concurrentRequests (parse_args ["https://site.test/"; "-v"]) = JS.Int 25 /\
  concurrentRequests
    (parse_args ["https://site.test/"; "-v"; "--concurrent=4=x"; "--concurrent=9"])
    = JS.Int 4.
Proof.
  refine (@concurrent_option ["https://site.test/"; "-v"] ["--concurrent=9"] "4=x" _).
  intros a Ha. repeat (apply elem_of_cons in Ha as [->|Ha]; [reflexivity|]).
  apply elem_of_nil in Ha. contradiction.
Defined.

(** ** Errors before the crawl *)




(** ** Termination *)

Section Termination.
Context {platform : Platform}.
Variable U : gset string.

Lemma size_difference_add (x : string) (Q : gset string) :
  x ∈ U -> x ∉ Q -> (size (U ∖ ({[x]} ∪ Q)) + 1 = size (U ∖ Q))%nat.
Proof.
  intros HU HQ.
  assert (E : U ∖ Q = {[x]} ∪ (U ∖ ({[x]} ∪ Q))).
  { apply set_eq. intros y.
    rewrite elem_of_union, !elem_of_difference, elem_of_union, elem_of_singleton.
    destruct (decide (y = x)) as [->|Hne]; intuition congruence. }
  assert (D : ({[x]} : gset string) ## U ∖ ({[x]} ∪ Q)).
  { intros y. rewrite elem_of_singleton, elem_of_difference, elem_of_union,
      elem_of_singleton. intuition congruence. }
  rewrite E. rewrite (size_union _ _ D), size_singleton. lia.
Qed.

Lemma enqueue_links_work origin links g :
  (forall l, l ∈ links -> l ∈ U) ->
  (forall t, t ∈ queue g -> task_url t ∈ U) ->
  (forall t, t ∈ queue (enqueue_links origin links g).1 -> task_url t ∈ U) /\
  (size (U ∖ queuedLinks (enqueue_links origin links g).1)
   + length (queue (enqueue_links origin links g).1)
   <= size (U ∖ queuedLinks g) + length (queue g))%nat.
Proof.
  revert g. induction links as [|link rest IH]; intros g Hl Hq; [auto|].
  assert (Hrest : forall l, l ∈ rest -> l ∈ U)
    by (intros l Hin; apply Hl, list_elem_of_further, Hin).
  assert (Hlink : link ∈ U) by apply Hl, list_elem_of_here.
  cbn [enqueue_links]. destruct (decide (link ∈ queuedLinks g)) as [Hin|Hin]; [auto|].
  pose proof (size_difference_add link (queuedLinks g) Hlink Hin) as Hsize.
  destruct (URL_origin link) as [o|m].
  - set (t := if String.eqb o origin then CheckLinks link else CheckExternal link).
    destruct (IH (totalLinks_incr (queue_push t (queuedLinks_add link g))) Hrest) as [H1 H2].
    + cbn. intros t' [Ht'| ->%list_elem_of_singleton]%elem_of_app; [auto|].
      unfold t. destruct (String.eqb o origin); exact Hlink.
    + split; [exact H1|]. cbn in H2. rewrite length_app in H2. cbn in H2. lia.
  - cbn. split; [exact Hq | lia].
Qed.

(** Every resumption of a worker that has not returned does some of the work
    left, within the site. *)
Lemma resume_work origin w g :
  closed_site U -> within U g w -> w <> Returned ->
  within U (resume origin w g).1 (resume origin w g).2 /\
  (work_left U (resume origin w g).1 (resume origin w g).2 < work_left U g w)%nat.
Proof.
  intros Hclosed [Hq Hw] Hnr. unfold work_left, within.
  destruct w as [x|x response|x| |]; cbn [resume phase] in *; try contradiction.
  - destruct (fetch x) as [response|m] eqn:Hfetch; cbn [checkLinks_fetched].
    + destruct (Hclosed x response Hw Hfetch) as [Hredirect _].
      unfold checkLinks_response.
      destruct (Z.leb_spec 400 (response_status response)) as [H400|H400];
        [cbn; split; [auto | lia]|].
      destruct (Z.leb_spec 300 (response_status response)) as [H300|H300]; cbn [andb].
      * rewrite (proj2 (Z.ltb_lt _ _) H400).
        destruct (truthy (header_location response)) as [location|] eqn:Hloc;
          [|cbn; split; [auto | lia]].
        unfold follow_redirect. destruct (URL_href location x) as [target|m] eqn:Hres;
          [|cbn; split; [auto | lia]].
        specialize (Hredirect location target (conj H300 H400) eq_refl Hres).
        destruct (decide _) as [Hin|Hin]; [cbn; split; [auto | lia]|].
        cbn in Hin. pose proof (size_difference_add target _ Hredirect Hin) as Hsize.
        cbn. rewrite length_app. cbn. split; [|lia]. split; [|exact I].
        intros t [Ht| ->%list_elem_of_singleton]%elem_of_app; [auto | exact Hredirect].
      * destruct (JS.includes "text/html" _) eqn:Hhtml; cbn [negb];
          cbn; (split; [auto | lia]).
    + cbn. split; [auto | lia].
  - destruct Hw as (Hx & Hfetch & Hst & Hhtml).
    destruct (Hclosed x response Hx Hfetch) as [_ Hlinks].
    unfold checkLinks_text. destruct (response_anchors response) as [anchors|m] eqn:Ha;
      [|cbn; split; [auto | lia]].
    destruct (enqueue_links_work origin (extract_links x anchors) g) as [H1 H2];
      [intros l; apply (Hlinks anchors l Hst Hhtml eq_refl) | exact Hq |].
    destruct (enqueue_links origin (extract_links x anchors) g) as [g' [m|]];
      cbn [fst snd] in *; cbn; (split; [auto | lia]).
  - unfold external_fetched. destruct (fetch x) as [response|m].
    + destruct (400 <=? response_status response); cbn; (split; [auto | lia]).
    + cbn. split; [auto | lia].
  - unfold worker_loop. destruct (queue g) as [|t rest] eqn:Hqueue.
    + cbn. rewrite Hqueue. cbn. split; [auto | lia].
    + assert (Ht : task_url t ∈ U) by (apply Hq, list_elem_of_here).
      assert (Hrest : forall t', t' ∈ rest -> task_url t' ∈ U)
        by (intros t' Hin; apply Hq, list_elem_of_further, Hin).
      destruct t as [x|x]; cbn [task_call].
      * unfold checkLinks_call. destruct (decide _); cbn; (split; [auto | lia]).
      * cbn. split; [auto | lia].
Qed.

Lemma drive_terminates origin fuel g w :
  closed_site U -> within U g w -> (work_left U g w <= fuel)%nat ->
  (drive origin fuel (g, w)).2 = Returned.
Proof.
  intros Hclosed. revert g w. induction fuel as [|fuel IH]; intros g w Hin Hle.
  - cbn. unfold work_left in Hle. destruct w; cbn in Hle; try lia. reflexivity.
  - assert (Hdec : w = Returned \/ w <> Returned)
      by (destruct w; (left; reflexivity) || (right; discriminate)).
    destruct Hdec as [->|Hnr]; [rewrite drive_returned; reflexivity|].
    cbn [drive fst snd].
    destruct (resume_work origin w g Hclosed Hin Hnr) as [Hin' Hlt].
    destruct (resume origin w g) as [g' w']. cbn [fst snd] in *.
    apply IH; [exact Hin' | lia].
Qed.

End Termination.

(** X4. On a finite site the crawl ends, cycles of links and of redirects
    included: if the seed belongs to a finite set of addresses closed under
    the redirects and the links of its pages, then once the first worker was
    resumed three times per address of the set, every worker has returned and
    [main] reports. *)
Theorem crawl_terminates {platform : Platform}
    (args : list string) (u origin : string) (n : nat) (U : gset string)
    (sched : list nat) :
  truthy (inputURL (parse_args args)) = Some u ->
  URL_origin u = Ok origin ->
  worker_count (concurrentRequests (parse_args args)) = Ok n ->
  u ∈ U -> closed_site U ->
  (3 * size U <= first_worker_turns sched)%nat ->
  exists e, main args sched = Some e.
Proof.
  intros Hu Ho Hn HU Hclosed Hturns. unfold main, main_start. rewrite Hu, Ho, Hn.
  destruct n as [|n].
  - cbn [start_workers]. rewrite run_no_worker. cbn. eauto.
  - rewrite start_workers_seeded, run_serial.
    assert (Hret : (drive origin (first_worker_turns sched)
                      (visited_add u (queue_set [] (seeded u)), AwaitFetch u)).2 = Returned).
    { apply (drive_terminates U); [exact Hclosed| |].
      - split; [|exact HU]. cbn. intros t Ht. apply elem_of_nil in Ht. contradiction.
      - unfold work_left. cbn.
        assert (Hsize : (size (U ∖ ({[u]} ∪ ∅)) + 1 = size U)%nat).
        { rewrite (size_difference_add U u ∅ HU) by apply not_elem_of_empty.
          f_equal. apply set_eq. intros y. rewrite elem_of_difference, elem_of_empty.
          tauto. }
        lia. }
    destruct (drive origin _ _) as [g w]. cbn [fst snd] in *. subst w.
    unfold all_returned. cbn [workers forallb].
    assert (Hrep : forall k, forallb (fun w => match w with Returned => true | _ => false end)
                     (replicate k Returned) = true).
    { intros k. induction k; [reflexivity|]. cbn. assumption. }
    rewrite Hrep. eauto.
Qed.

Lemma crawl_terminates_witness :
  exists e, @main site_root_link ["https://site.test/"] (replicate 6 O) = Some e.
Proof.
  apply (@crawl_terminates site_root_link ["https://site.test/"]
           "https://site.test/" "https://site.test" 25
           ({["https://site.test/"]} ∪ {["https://site.test"]}) (replicate 6 O));
    [reflexivity | reflexivity | reflexivity | | | vm_compute; lia].
  - apply elem_of_union. left. apply elem_of_singleton. reflexivity.
  - intros u response Hu Hfetch.
    apply elem_of_union in Hu as [Hu|Hu]; apply elem_of_singleton in Hu; subst u;
      injection Hfetch as <-; (split; [intros location target [Hlo _]; cbn in Hlo; lia|]);
      intros anchors l _ _ [= <-] Hl;
      change (l ∈ ["https://site.test"]) in Hl;
      apply list_elem_of_singleton in Hl; subst l;
      apply elem_of_union; right; apply elem_of_singleton; reflexivity.
Defined.

(** ** What is crawled *)

Section Crawlable.
Context {platform : Platform}.
Variables seed origin : string.




End Crawlable.


